(** * T: the window event loop of [main.go]

    A shallow embedding of the dispatch loop of the T text editor
    ([main.go]: [newWindow], [tick], [poll], [mouseEvent], [keyEvent],
    [dirKey], [modKey], [bufTex]) together with the [Row] calling
    convention documented in [ui/row.go].

    The window tree [ui.Win] is a collaborator of the loop: it is kept
    abstract behind the operations [main.go] calls on it.  Every call the
    loop makes on the tree, on the host screen and on its own event queue
    is recorded, in order, in a ghost field [calls] of the window. *)

From Stdlib Require Import ZArith List Bool String QArith Lia.
Import ListNotations.
Open Scope Z_scope.

(** ** Machine integers

    Go's [int] is taken to be 64 bits wide, [int32] and [rune] 32 bits.
    Values are mathematical integers; every arithmetic operation of the
    source is followed by its two's-complement wrap-around. *)

Definition wrap (w : Z) (x : Z) : Z :=
  (x + 2 ^ (w - 1)) mod 2 ^ w - 2 ^ (w - 1).

Definition int (x : Z) : Z := wrap 64 x.
Definition int_neg (x : Z) : Z := int (- x).
Definition int_sub (x y : Z) : Z := int (x - y).
Definition int_mul (x y : Z) : Z := int (x * y).

Definition in_int32 (x : Z) : Prop := - 2 ^ 31 <= x < 2 ^ 31.
Definition in_int (x : Z) : Prop := - 2 ^ 63 <= x < 2 ^ 63.

(** [math.MinInt16] and [math.MaxInt16]. *)
Definition MinInt16 : Z := - 2 ^ 15.
Definition MaxInt16 : Z := 2 ^ 15 - 1.

(** [int(f)] for a [float32] [f]: truncation toward zero.  Finite floats
    are rationals; NaN and the infinities have no counterpart here.  When
    the truncated value does not fit an [int], Go leaves the result to
    the implementation; the value taken here, [-2^63], is the one amd64
    gives. *)
Definition int_of_float (f : Q) : Z :=
  let t := Z.quot (Qnum f) (Zpos (Qden f)) in
  if (- 2 ^ 63 <=? t) && (t <? 2 ^ 63) then t else - 2 ^ 63.

(** ** Package [image] *)

Module image.

Record Point := Pt { X : Z; Y : Z }.

Definition ZP : Point := Pt 0 0.

Definition Point_eqb (p q : Point) : bool :=
  (X p =? X q) && (Y p =? Y q).

(** [Point.Mul] *)
Definition Mul (p : Point) (k : Z) : Point :=
  Pt (int_mul (X p) k) (int_mul (Y p) k).

Record Rectangle := Rect { Min : Point; Max : Point }.

Definition Dx (r : Rectangle) : Z := int_sub (X (Max r)) (X (Min r)).
Definition Dy (r : Rectangle) : Z := int_sub (Y (Max r)) (Y (Min r)).

(** [image.ZR], the zero rectangle. *)
Definition ZR : Rectangle := Rect ZP ZP.

(** [Rectangle.Empty] *)
Definition Empty (r : Rectangle) : bool :=
  (X (Max r) <=? X (Min r)) || (Y (Max r) <=? Y (Min r)).

(** [Rectangle.Intersect]: the larger of the minima and the smaller of
    the maxima, and [ZR] when that is empty. *)
Definition Intersect (r s : Rectangle) : Rectangle :=
  let minx := if X (Min r) <? X (Min s) then X (Min s) else X (Min r) in
  let miny := if Y (Min r) <? Y (Min s) then Y (Min s) else Y (Min r) in
  let maxx := if X (Max s) <? X (Max r) then X (Max s) else X (Max r) in
  let maxy := if Y (Max s) <? Y (Max r) then Y (Max s) else Y (Max r) in
  let r := Rect (Pt minx miny) (Pt maxx maxy) in
  if Empty r then ZR else r.

(** [RGBA.SubImage], on the bounds: an image is stood for by its
    bounds [p], its pixels being no concern of the loop.  The sub-image
    has the bounds [r.Intersect(p.Rect)], and is the empty image
    the zero [RGBA], whose bounds are [ZR], when these are empty. *)
Definition SubImage (p r : Rectangle) : Rectangle :=
  let r := Intersect r p in
  if Empty r then ZR else r.

End image.

(** ** Package [key] (golang.org/x/mobile/event/key) *)

Module key.

(** [Code] is a [uint32]; the values are the USB HID usage codes. *)
Definition CodeReturnEnter : Z := 40.
Definition CodeDeleteBackspace : Z := 42.
Definition CodeHome : Z := 74.
Definition CodePageUp : Z := 75.
Definition CodeDeleteForward : Z := 76.
Definition CodeEnd : Z := 77.
Definition CodePageDown : Z := 78.
Definition CodeRightArrow : Z := 79.
Definition CodeLeftArrow : Z := 80.
Definition CodeDownArrow : Z := 81.
Definition CodeUpArrow : Z := 82.
Definition CodeLeftControl : Z := 224.
Definition CodeLeftShift : Z := 225.
Definition CodeLeftAlt : Z := 226.

(** [Modifiers] is a bit set in a [uint32]. *)
Definition ModShift : Z := Z.shiftl 1 0.
Definition ModControl : Z := Z.shiftl 1 1.
Definition ModAlt : Z := Z.shiftl 1 2.
Definition ModMeta : Z := Z.shiftl 1 3.

(** [Direction] is a [uint8]. *)
Definition DirNone : Z := 0.
Definition DirPress : Z := 1.
Definition DirRelease : Z := 2.

Record Event := mkEvent {
  Rune : Z;
  Code : Z;
  Modifiers : Z;
  Direction : Z
}.

End key.

(** ** Package [mouse] (golang.org/x/mobile/event/mouse) *)

Module mouse.

(** [Button] is an [int32]; wheel "buttons" are the negative ones. *)
Definition ButtonNone : Z := 0.
Definition ButtonLeft : Z := 1.
Definition ButtonMiddle : Z := 2.
Definition ButtonRight : Z := 3.
Definition ButtonWheelUp : Z := -1.
Definition ButtonWheelDown : Z := -2.
Definition ButtonWheelLeft : Z := -3.
Definition ButtonWheelRight : Z := -4.

(** [Direction] is a [uint8]. *)
Definition DirNone : Z := 0.
Definition DirPress : Z := 1.
Definition DirRelease : Z := 2.
Definition DirStep : Z := 3.

Record Event := mkEvent {
  X : Q;
  Y : Q;
  Button : Z;
  Modifiers : Z;
  Direction : Z
}.

End mouse.

(** ** Packages [lifecycle], [size] and [paint] *)

Module lifecycle.

Definition StageDead : Z := 0.
Definition StageAlive : Z := 1.
Definition StageVisible : Z := 2.
Definition StageFocused : Z := 3.

Record Event := mkEvent { From : Z; To : Z }.

End lifecycle.

Module size.

Record Event := mkEvent {
  WidthPx : Z;
  HeightPx : Z;
  PixelsPerPt : Q
}.

(** [Event.Size] *)
Definition Size (e : Event) : image.Point :=
  image.Pt (WidthPx e) (HeightPx e).

End size.

Module paint.

Record Event := mkEvent { External : bool }.

End paint.

(** ** What travels through the window's event queue

    [w.NextEvent()] yields an [interface{}]; [poll] switches on its
    dynamic type.  [done] and [time.Time] are the two notifications the
    [tick] goroutine sends. *)

Inductive Event :=
| done_
| time_Time (now : Z)
| lifecycle_Event (e : lifecycle.Event)
| size_Event (e : size.Event)
| paint_Event (e : paint.Event)
| mouse_Event (e : mouse.Event)
| key_Event (e : key.Event)
| other_Event.

(** ** Package [screen]: buffers, textures, the host screen *)

Module screen.

Record Buffer := mkBuffer { buf_size : image.Point }.
Record Texture := mkTexture { tex_size : image.Point }.

(** [Texture.Bounds]: a texture of size [sz] spans [(0,0)-sz]. *)
Definition Bounds (t : Texture) : image.Rectangle :=
  image.Rect image.ZP (tex_size t).

Definition Buffer_Bounds (b : Buffer) : image.Rectangle :=
  image.Rect image.ZP (buf_size b).

(** [Buffer.RGBA], on the bounds: the image of a buffer spans the
    buffer. *)
Definition RGBA (b : Buffer) : image.Rectangle := Buffer_Bounds b.

(** The host screen; allocation of a buffer or a texture may fail. *)
Record Screen := mkScreen {
  NewWindow_ok : bool;
  NewBuffer_ok : image.Point -> bool;
  NewTexture_ok : image.Point -> bool
}.

End screen.

(** ** Package [ui]: the window tree, as [main.go] uses it

    Only [Tick] returns something [main.go] looks at; the results of the
    other handlers are dropped by the loop. *)

Module ui.

Class WinOps (Win : Type) := {
  NewWin : Q -> Win;
  Resize : image.Point -> Win -> Win;
  Tick : Win -> bool * Win;
  Focus : bool -> Win -> Win;
  Draw : bool -> image.Rectangle -> Win -> Win;
  Wheel : image.Point -> Z -> Z -> Win -> Win;
  Move : image.Point -> Win -> Win;
  Click : image.Point -> Z -> Win -> Win;
  Dir : Z -> Z -> Win -> Win;
  Mod : Z -> Win -> Win;
  Rune : Z -> Win -> Win
}.

End ui.

(** ** The record of calls

    The image handed to [Draw] is recorded by its bounds. *)

Inductive Call :=
| Win_Resize (sz : image.Point)
| Win_Tick (ret : bool)
| Win_Focus (focus : bool)
| Win_Draw (dirty : bool) (img : image.Rectangle)
| Win_Wheel (pt : image.Point) (x y : Z)
| Win_Move (pt : image.Point)
| Win_Click (pt : image.Point) (button : Z)
| Win_Dir (x y : Z)
| Win_Mod (m : Z)
| Win_Rune (r : Z)
| NextEvent_ (e : Event)
| Send_ (e : Event)
| cancel_
| NewBuffer_ (sz : image.Point)
| NewTexture_ (sz : image.Point)
| Buffer_Release (b : screen.Buffer)
| Texture_Release (t : screen.Texture)
| Texture_Upload (t : screen.Texture) (b : screen.Buffer)
| Window_Draw (t : screen.Texture)
| Window_Publish
| Window_Release
| close_done.

(** ** Outcomes: a value, or a Go panic *)

Inductive Result (A : Type) :=
| Ok (a : A)
| Panic (msg : string).

Arguments Ok {A} a.
Arguments Panic {A} msg.

(** ** [[4]bool] *)

Record bool4 := B4 { b0 : bool; b1 : bool; b2 : bool; b3 : bool }.

Definition zero4 : bool4 := B4 false false false false.

(** [a[i]]; the source only indexes within [0..3]. *)
Definition idx (a : bool4) (i : Z) : bool :=
  if i =? 0 then b0 a
  else if i =? 1 then b1 a
  else if i =? 2 then b2 a
  else if i =? 3 then b3 a
  else false.

(** [a[i] = v] *)
Definition set4 (a : bool4) (i : Z) (v : bool) : bool4 :=
  if i =? 0 then B4 v (b1 a) (b2 a) (b3 a)
  else if i =? 1 then B4 (b0 a) v (b2 a) (b3 a)
  else if i =? 2 then B4 (b0 a) (b1 a) v (b3 a)
  else if i =? 3 then B4 (b0 a) (b1 a) (b2 a) v
  else a.

(** How many flags differ between two modifier states. *)
Definition changed (a b : bool4) : nat :=
  List.length
    (List.filter (fun i => negb (Bool.eqb (idx a i) (idx b i))) [0; 1; 2; 3]).

(** * The program *)

Section Main.

Context {Win : Type} {ops : ui.WinOps Win}.

(** ** [type win struct]

    [ctx_Done] tells whether [w.ctx] has been cancelled, [done] whether
    the channel [w.done] has been closed.  The embedded [screen.Window]
    is its event queue [events] (front first) and whether it has been
    released.  [calls] is the ghost record of calls, oldest first. *)

Record win := mkwin {
  ctx_Done : bool;
  done : bool;
  dpi : Q;
  size : image.Point;
  events : list Event;
  released : bool;
  win_ : Win;
  calls : list Call
}.

(** ** The monad of the loop: state [win], failure by panic *)

Definition M (A : Type) : Type := win -> Result (A * win).

Definition ret {A : Type} (a : A) : M A := fun w => Ok (a, w).

Definition bind {A B : Type} (m : M A) (k : A -> M B) : M B :=
  fun w => match m w with
           | Ok (a, w') => k a w'
           | Panic msg => Panic msg
           end.

Definition panic {A : Type} (msg : string) : M A := fun _ => Panic msg.

Notation "x <- m ;; k" := (bind m (fun x => k))
  (at level 61, m at next level, right associativity).
Notation "m ;;; k" := (bind m (fun _ => k))
  (at level 61, right associativity).

(** *** Primitive actions *)

Definition record (c : Call) (w : win) : win :=
  mkwin (ctx_Done w) (done w) (dpi w) (size w) (events w) (released w)
        (win_ w) (calls w ++ [c]).

Definition with_win (u : Win) (w : win) : win :=
  mkwin (ctx_Done w) (done w) (dpi w) (size w) (events w) (released w)
        u (calls w).

Definition with_events (q : list Event) (w : win) : win :=
  mkwin (ctx_Done w) (done w) (dpi w) (size w) q (released w)
        (win_ w) (calls w).

Definition log (c : Call) : M unit := fun w => Ok (tt, record c w).

(** A call on [w.win] whose result the loop ignores. *)
Definition on_win (c : Call) (f : Win -> Win) : M unit :=
  fun w => Ok (tt, record c (with_win (f (win_ w)) w)).

Definition win_Resize (sz : image.Point) : M unit :=
  on_win (Win_Resize sz) (ui.Resize sz).
Definition win_Focus (focus : bool) : M unit :=
  on_win (Win_Focus focus) (ui.Focus focus).
Definition win_Draw (dirty : bool) (img : image.Rectangle) : M unit :=
  on_win (Win_Draw dirty img) (ui.Draw dirty img).
Definition win_Wheel (pt : image.Point) (x y : Z) : M unit :=
  on_win (Win_Wheel pt x y) (ui.Wheel pt x y).
Definition win_Move (pt : image.Point) : M unit :=
  on_win (Win_Move pt) (ui.Move pt).
Definition win_Click (pt : image.Point) (button : Z) : M unit :=
  on_win (Win_Click pt button) (ui.Click pt button).
Definition win_Dir (x y : Z) : M unit :=
  on_win (Win_Dir x y) (ui.Dir x y).
Definition win_Mod (m : Z) : M unit :=
  on_win (Win_Mod m) (ui.Mod m).
Definition win_Rune (r : Z) : M unit :=
  on_win (Win_Rune r) (ui.Rune r).

Definition win_Tick : M bool :=
  fun w => let (r, u) := ui.Tick (win_ w) in
           Ok (r, record (Win_Tick r) (with_win u w)).

(** [w.Send(e)]: the event goes to the back of the queue. *)
Definition Send (e : Event) : M unit :=
  fun w => Ok (tt, record (Send_ e) (with_events (events w ++ [e]) w)).

(** [w.NextEvent()]: the event at the front of the queue; [None] when the
    queue is empty and the call would block. *)
Definition NextEvent : M (option Event) :=
  fun w => match events w with
           | [] => Ok (None, w)
           | e :: q => Ok (Some e, record (NextEvent_ e) (with_events q w))
           end.

(** [w.cancel()] *)
Definition cancel : M unit :=
  fun w => Ok (tt, record cancel_
                 (mkwin true (done w) (dpi w) (size w) (events w)
                        (released w) (win_ w) (calls w))).

(** [w.Window.Release()] *)
Definition Window_Release_ : M unit :=
  fun w => Ok (tt, record Window_Release
                 (mkwin (ctx_Done w) (done w) (dpi w) (size w) (events w)
                        true (win_ w) (calls w))).

(** [close(w.done)] *)
Definition close_done_ : M unit :=
  fun w => Ok (tt, record close_done
                 (mkwin (ctx_Done w) true (dpi w) (size w) (events w)
                        (released w) (win_ w) (calls w))).

(** [w.size = sz] *)
Definition set_size (sz : image.Point) : M unit :=
  fun w => Ok (tt, mkwin (ctx_Done w) (done w) (dpi w) sz (events w)
                         (released w) (win_ w) (calls w)).

Definition get_size : M image.Point := fun w => Ok (size w, w).

(** [scr.NewBuffer(sz)] and [scr.NewTexture(sz)]; [None] is [err != nil]. *)
Definition NewBuffer (scr : screen.Screen) (sz : image.Point)
  : M (option screen.Buffer) :=
  if screen.NewBuffer_ok scr sz
  then log (NewBuffer_ sz) ;;; ret (Some (screen.mkBuffer sz))
  else ret None.

Definition NewTexture (scr : screen.Screen) (sz : image.Point)
  : M (option screen.Texture) :=
  if screen.NewTexture_ok scr sz
  then log (NewTexture_ sz) ;;; ret (Some (screen.mkTexture sz))
  else ret None.

(** ** [func bufTex] *)

Definition bufTex (scr : screen.Screen) (sz : image.Point)
  : M (screen.Buffer * screen.Texture) :=
  obuf <- NewBuffer scr sz ;;
  match obuf with
  | None => panic "NewBuffer"
  | Some buf =>
      otex <- NewTexture scr sz ;;
      match otex with
      | None => panic "NewTexture"
      | Some tex => ret (buf, tex)
      end
  end.

(** ** [func mouseEvent] *)

Definition mouseEvent (e : mouse.Event) : M unit :=
  let pt := image.Pt (int_of_float (mouse.X e)) (int_of_float (mouse.Y e)) in
  if mouse.Button e =? mouse.ButtonWheelUp then
    win_Wheel pt 0 1
  else if mouse.Button e =? mouse.ButtonWheelDown then
    win_Wheel pt 0 (-1)
  else if mouse.Button e =? mouse.ButtonWheelLeft then
    win_Wheel pt (-1) 0
  else if mouse.Button e =? mouse.ButtonWheelRight then
    win_Wheel pt 1 0
  else if mouse.Direction e =? mouse.DirNone then
    win_Move pt
  else if mouse.Direction e =? mouse.DirPress then
    win_Click pt (int (mouse.Button e))
  else if mouse.Direction e =? mouse.DirRelease then
    win_Click pt (int_neg (int (mouse.Button e)))
  else if mouse.Direction e =? mouse.DirStep then
    win_Click pt (int (mouse.Button e)) ;;;
    win_Click pt (int_neg (int (mouse.Button e)))
  else
    ret tt.

(** ** [var dirKeyCode], a [map[key.Code]bool] *)

Definition dirKeyCode : list (Z * bool) :=
  [ (key.CodeUpArrow, true);
    (key.CodeDownArrow, true);
    (key.CodeLeftArrow, true);
    (key.CodeRightArrow, true);
    (key.CodePageUp, true);
    (key.CodePageDown, true);
    (key.CodeHome, true);
    (key.CodeEnd, true) ].

(** [m[k]]: the zero value [false] for an absent key. *)
Fixpoint lookup (m : list (Z * bool)) (k : Z) : bool :=
  match m with
  | [] => false
  | (k', v) :: m' => if k =? k' then v else lookup m' k
  end.

(** ** [func dirKey] *)

Definition dirKey (e : key.Event) : M unit :=
  if key.Code e =? key.CodeUpArrow then win_Dir 0 (-1)
  else if key.Code e =? key.CodeDownArrow then win_Dir 0 1
  else if key.Code e =? key.CodeLeftArrow then win_Dir (-1) 0
  else if key.Code e =? key.CodeRightArrow then win_Dir 1 0
  else if key.Code e =? key.CodePageUp then win_Dir 0 (-2)
  else if key.Code e =? key.CodePageDown then win_Dir 0 2
  else if key.Code e =? key.CodeHome then win_Dir 0 MinInt16
  else if key.Code e =? key.CodeEnd then win_Dir 0 MaxInt16
  else panic "impossible".

(** ** [func modKey] *)

(** The loop [for i := 0; i < len(newMods); i++], entered at [i] with
    [n] iterations left; it stops at the first index where the two
    states differ. *)
Fixpoint modKey_loop (n : nat) (i : Z) (mods newMods : bool4) : M bool4 :=
  match n with
  | O => ret mods
  | S n' =>
      if negb (Bool.eqb (idx newMods i) (idx mods i)) then
        let m := i in
        let m := if negb (idx newMods i) then int_neg m else m in
        win_Mod m ;;;
        ret newMods
      else modKey_loop n' (i + 1) mods newMods
  end.

Definition modKey (mods : bool4) (e : key.Event) : M bool4 :=
  let newMods := zero4 in
  let newMods :=
    if negb (Z.land (key.Modifiers e) key.ModShift =? 0)
    then set4 newMods 1 true else newMods in
  let newMods :=
    if negb (Z.land (key.Modifiers e) key.ModAlt =? 0)
    then set4 newMods 2 true else newMods in
  let newMods :=
    if negb (Z.land (key.Modifiers e) key.ModMeta =? 0)
       || negb (Z.land (key.Modifiers e) key.ModControl =? 0)
    then set4 newMods 3 true else newMods in
  modKey_loop 4 0 mods newMods.

(** ** [func keyEvent] *)

Definition set_Direction (e : key.Event) (d : Z) : key.Event :=
  key.mkEvent (key.Rune e) (key.Code e) (key.Modifiers e) d.

Definition set_Rune (e : key.Event) (r : Z) : key.Event :=
  key.mkEvent r (key.Code e) (key.Modifiers e) (key.Direction e).

Definition keyEvent (mods : bool4) (e : key.Event) : M bool4 :=
  let e := if key.Direction e =? key.DirNone
           then set_Direction e key.DirPress else e in
  if (key.Direction e =? key.DirPress) && lookup dirKeyCode (key.Code e) then
    dirKey e ;;;
    ret mods
  else
    let e :=
      if key.Code e =? key.CodeDeleteBackspace then set_Rune e 8
      else if key.Code e =? key.CodeDeleteForward then set_Rune e 0x7f
      else if key.Rune e =? 13 then set_Rune e 10
      else e in
    if 0 <? key.Rune e then
      (if key.Direction e =? key.DirPress
       then win_Rune (key.Rune e) else ret tt) ;;;
      ret mods
    else
      modKey mods e.

(** ** [func poll] *)

(** The local variables of [poll]. *)
Record frame := mkframe {
  mods : bool4;
  dirty : bool;
  buf : screen.Buffer;
  tex : screen.Texture
}.

(** The statements of [poll] before its loop. *)
Definition poll_init (scr : screen.Screen) : M frame :=
  let mods := zero4 in
  let dirty := true in
  sz <- get_size ;;
  bt <- bufTex scr sz ;;
  ret (mkframe mods dirty (fst bt) (snd bt)).

(** One arm of [switch e := w.NextEvent().(type)].  The boolean tells
    whether [poll] returns ([true]) or goes round the loop again. *)
Definition poll_case (scr : screen.Screen) (l : frame) (e : Event)
  : M (frame * bool) :=
  match e with
  | done_ =>
      log (Buffer_Release (buf l)) ;;;
      log (Texture_Release (tex l)) ;;;
      Window_Release_ ;;;
      close_done_ ;;;
      ret (l, true)

  | time_Time _ =>
      r <- win_Tick ;;
      (if r then Send (paint_Event (paint.mkEvent false)) else ret tt) ;;;
      ret (l, false)

  | lifecycle_Event e =>
      if lifecycle.To e =? lifecycle.StageDead then
        cancel ;;;
        ret (l, false)
      else
        win_Focus (lifecycle.To e =? lifecycle.StageFocused) ;;;
        ret (l, false)

  | size_Event e =>
      if image.Point_eqb (size.Size e) image.ZP then
        cancel ;;;
        ret (l, false)
      else
        set_size (size.Size e) ;;;
        sz <- get_size ;;
        win_Resize sz ;;;
        let l := mkframe (mods l) true (buf l) (tex l) in
        let b := screen.Bounds (tex l) in
        if (image.Dx b <? image.X sz) || (image.Dy b <? image.Y sz) then
          log (Texture_Release (tex l)) ;;;
          log (Buffer_Release (buf l)) ;;;
          bt <- bufTex scr (image.Mul sz 2) ;;
          ret (mkframe (mods l) (dirty l) (fst bt) (snd bt), false)
        else
          ret (l, false)

  | paint_Event _ =>
      sz <- get_size ;;
      let rect := image.Rect image.ZP sz in
      let img := image.SubImage (screen.RGBA (buf l)) rect in
      win_Draw (dirty l) img ;;;
      let l := mkframe (mods l) false (buf l) (tex l) in
      log (Texture_Upload (tex l) (buf l)) ;;;
      log (Window_Draw (tex l)) ;;;
      log Window_Publish ;;;
      ret (l, false)

  | mouse_Event e =>
      mouseEvent e ;;;
      ret (l, false)

  | key_Event e =>
      mods' <- keyEvent (mods l) e ;;
      ret (mkframe mods' (dirty l) (buf l) (tex l), false)

  | other_Event =>
      ret (l, false)
  end.

(** How a bounded run of the loop ends. *)
Inductive status :=
| Returned   (* [poll] returned, after [done] *)
| Blocked    (* the queue is empty: [NextEvent] waits *)
| Running.   (* the bound was reached in the middle of the loop *)

(** [for { switch e := w.NextEvent().(type) ... } }], at most [fuel]
    events. *)
Fixpoint poll_loop (fuel : nat) (scr : screen.Screen) (l : frame)
  : M (status * frame) :=
  match fuel with
  | O => ret (Running, l)
  | S fuel' =>
      oe <- NextEvent ;;
      match oe with
      | None => ret (Blocked, l)
      | Some e =>
          lr <- poll_case scr l e ;;
          if snd lr then ret (Returned, fst lr)
          else poll_loop fuel' scr (fst lr)
      end
  end.

Definition poll (fuel : nat) (scr : screen.Screen) : M (status * frame) :=
  l <- poll_init scr ;;
  poll_loop fuel scr l.

(** ** [func tick]

    One round of the [select]: the ticker fired, or the context is done.
    The second case can only be taken once the context is cancelled;
    [None] says the chosen case is not ready.  The boolean tells whether
    the goroutine goes on. *)

Inductive select_case :=
| ticker_C (now : Z)
| ctx_Done_.

Definition tick (c : select_case) : M (option bool) :=
  match c with
  | ticker_C now =>
      Send (time_Time now) ;;;
      ret (Some true)
  | ctx_Done_ =>
      fun w =>
        if ctx_Done w then (Send done_ ;;; ret (Some false)) w
        else ret None w
  end.

(** ** [func newWindow]

    [await_size] is the first loop: events are taken from the queue until
    a [size.Event] shows up; [None] when the queue runs dry first. *)

Fixpoint await_size (q : list Event) : option (size.Event * list Event) :=
  match q with
  | [] => None
  | size_Event e :: q' => Some (e, q')
  | _ :: q' => await_size q'
  end.

(** [q] is what the host has queued on the new window.  The two
    goroutines [tick] and [poll] are started on the window returned.
    [dpi] is the exact product; the code computes it in [float32] and
    so rounds it.  Nothing in the loop reads [dpi] but [ui.NewWin]. *)
Definition newWindow (scr : screen.Screen) (q : list Event)
  : Result (option win) :=
  if negb (screen.NewWindow_ok scr) then Panic "NewWindow"
  else
    match await_size q with
    | None => Ok None
    | Some (e, q') =>
        let dpi := Qmult (size.PixelsPerPt e) (72 # 1) in
        let w := mkwin false false dpi (size.Size e) q' false
                       (ui.NewWin dpi) [] in
        match win_Resize (size w) w with
        | Ok (_, w') => Ok (Some w')
        | Panic msg => Panic msg
        end
    end.

(** [func (w *win) Release()] *)
Definition Release : M unit := cancel.

(** * Vocabulary of the properties *)

(** From [w], [m] returns [a] after making exactly the calls [cs]. *)
Definition yields {A : Type} (m : M A) (w : win) (a : A) (cs : list Call)
  : Prop :=
  exists w', m w = Ok (a, w') /\ calls w' = calls w ++ cs.

(** The events a stretch of calls took from the queue, and the events it
    put on it, in order. *)
Definition received (cs : list Call) : list Event :=
  flat_map (fun c => match c with NextEvent_ e => [e] | _ => [] end) cs.

Definition sent (cs : list Call) : list Event :=
  flat_map (fun c => match c with Send_ e => [e] | _ => [] end) cs.

(** The [Resize] and [Draw] calls on the window tree, in order. *)
Definition redraws (cs : list Call) : list Call :=
  filter (fun c => match c with
                   | Win_Resize _ | Win_Draw _ _ => true
                   | _ => false
                   end) cs.

(** The arguments of the [Rune], [Dir] and [Mod] calls, in order. *)
Definition runes (cs : list Call) : list Z :=
  flat_map (fun c => match c with Win_Rune r => [r] | _ => [] end) cs.

Definition dirs (cs : list Call) : list (Z * Z) :=
  flat_map (fun c => match c with Win_Dir x y => [(x, y)] | _ => [] end) cs.

Definition modcalls (cs : list Call) : list Z :=
  flat_map (fun c => match c with Win_Mod m => [m] | _ => [] end) cs.

(** A key press, as [keyEvent] understands it: the direction is
    [DirPress], or there is none. *)
Definition press_like (e : key.Event) : Prop :=
  key.Direction e = key.DirPress \/ key.Direction e = key.DirNone.

(** Events that are neither [done], nor a resize, nor a paint request. *)
Definition quiet (e : Event) : bool :=
  match e with
  | done_ | size_Event _ | paint_Event _ => false
  | _ => true
  end.

Definition wheel_button (b : Z) : bool :=
  (b =? mouse.ButtonWheelUp) || (b =? mouse.ButtonWheelDown)
  || (b =? mouse.ButtonWheelLeft) || (b =? mouse.ButtonWheelRight).

(** A size of area zero. *)
Definition zero_area (e : size.Event) : Prop :=
  size.WidthPx e * size.HeightPx e = 0.

Definition can_alloc (scr : screen.Screen) (sz : image.Point) : Prop :=
  screen.NewBuffer_ok scr sz = true /\ screen.NewTexture_ok scr sz = true.

(** The requested size does not fit the texture, in some dimension. *)
Definition exceeds (t : screen.Texture) (sz : image.Point) : Prop :=
  image.X (screen.tex_size t) < image.X sz
  \/ image.Y (screen.tex_size t) < image.Y sz.

(** What [poll] does with a resize it takes as the signal to tear down:
    the context is cancelled, and nothing else happens: the size is kept,
    the tree is not resized, the locals are untouched. *)
Definition begins_teardown (scr : screen.Screen) (l : frame)
  (e : size.Event) (w : win) : Prop :=
  exists w', poll_case scr l (size_Event e) w = Ok ((l, false), w')
    /\ ctx_Done w' = true
    /\ size w' = size w
    /\ calls w' = calls w ++ [cancel_].

(** What [poll] does with a resize it applies: the size is stored, the
    tree is resized first of all, the dirty flag is raised, and the
    context is left alone. *)
Definition applies_resize (scr : screen.Screen) (l : frame)
  (e : size.Event) (w : win) : Prop :=
  exists l' w' cs, poll_case scr l (size_Event e) w = Ok ((l', false), w')
    /\ ctx_Done w' = ctx_Done w
    /\ size w' = size.Size e
    /\ dirty l' = true
    /\ calls w' = calls w ++ Win_Resize (size.Size e) :: cs
    /\ ~ In cancel_ cs.

(** The point a pointer event is at, as [mouseEvent] computes it. *)
Definition pointer (e : mouse.Event) : image.Point :=
  image.Pt (int_of_float (mouse.X e)) (int_of_float (mouse.Y e)).

(** The event is dispatched as a press of its button followed at once by
    the release of the same button, at the event's point, and as nothing
    else. *)
Definition two_clicks (scr : screen.Screen) (l : frame) (e : mouse.Event)
  (w : win) : Prop :=
  yields (poll_case scr l (mouse_Event e)) w (l, false)
    [ Win_Click (pointer e) (mouse.Button e);
      Win_Click (pointer e) (- mouse.Button e) ].

(** The [Dir] arguments the claim gives for each directional key. *)
Definition dir_encoding (c x y : Z) : Prop :=
  (c = key.CodeUpArrow /\ x = 0 /\ y = -1)
  \/ (c = key.CodeDownArrow /\ x = 0 /\ y = 1)
  \/ (c = key.CodeLeftArrow /\ x = -1 /\ y = 0)
  \/ (c = key.CodeRightArrow /\ x = 1 /\ y = 0)
  \/ (c = key.CodePageUp /\ x = 0 /\ y = -2)
  \/ (c = key.CodePageDown /\ x = 0 /\ y = 2)
  \/ (c = key.CodeHome /\ x = 0 /\ y = - 2 ^ 15)
  \/ (c = key.CodeEnd /\ x = 0 /\ y = 2 ^ 15 - 1).

(** Exactly one of the two is non-zero. *)
Definition one_nonzero (x y : Z) : Prop :=
  (x = 0 /\ y <> 0) \/ (x <> 0 /\ y = 0).

(** The modifier state a key event reports, as [modKey] reads it off
    [e.Modifiers] into [newMods]. *)
Definition reported (e : key.Event) : bool4 :=
  B4 false
     (negb (Z.land (key.Modifiers e) key.ModShift =? 0))
     (negb (Z.land (key.Modifiers e) key.ModAlt =? 0))
     (negb (Z.land (key.Modifiers e) key.ModMeta =? 0)
      || negb (Z.land (key.Modifiers e) key.ModControl =? 0)).

(** The rune [keyEvent] works on after its [switch]. *)
Definition typed (e : key.Event) : Z :=
  if key.Code e =? key.CodeDeleteBackspace then 8
  else if key.Code e =? key.CodeDeleteForward then 0x7f
  else if key.Rune e =? 13 then 10
  else key.Rune e.


(** Whenever [m] returns, the window it leaves is related by [R] to the
    window it started from. *)
Definition steps (R : win -> win -> Prop) {A : Type} (m : M A) : Prop :=
  forall w a w', m w = Ok (a, w') -> R w w'.

(** [w'] is [w] with calls [cs] added to its record. *)
Definition extends (P : Call -> Prop) (w w' : win) : Prop :=
  exists cs, calls w' = calls w ++ cs /\ Forall P cs.

(** [m] only makes calls that satisfy [P]. *)
Definition emits (P : Call -> Prop) {A : Type} (m : M A) : Prop :=
  steps (extends P) m.

(** Nothing but the window tree and the record of calls has changed. *)
Definition same_but_tree (w w' : win) : Prop :=
  ctx_Done w' = ctx_Done w /\ done w' = done w /\ dpi w' = dpi w
  /\ size w' = size w /\ events w' = events w /\ released w' = released w.

(** A [Rune] call is fine when its argument is positive. *)
Definition rune_ok (c : Call) : Prop :=
  match c with
  | Win_Rune r => 0 < r
  | _ => True
  end.

(** The calls by which pointer and keyboard input reaches the tree. *)
Definition is_input (c : Call) : Prop :=
  match c with
  | Win_Wheel _ _ _ | Win_Move _ | Win_Click _ _
  | Win_Dir _ _ | Win_Mod _ | Win_Rune _ => True
  | _ => False
  end.

(** From [w] to [w'] the loop took the events [rcv] from the queue, in
    that order, and made the [Resize] and [Draw] calls [rd], in that
    order. *)
Definition seg (w w' : win) (rcv : list Event) (rd : list Call) : Prop :=
  exists cs, calls w' = calls w ++ cs /\ received cs = rcv /\ redraws cs = rd.

(** First in, first out: the events handled between [w] and [w'],
    followed by what is still queued at [w'], are what was queued at [w]
    followed by what has been sent since. *)
Definition fifo (w w' : win) : Prop :=
  exists cs, calls w' = calls w ++ cs
             /\ received cs ++ events w' = events w ++ sent cs.

(** The test of the [size.Event] arm: the texture is too small for [sz]. *)
Definition too_small (t : screen.Texture) (sz : image.Point) : bool :=
  (image.Dx (screen.Bounds t) <? image.X sz)
  || (image.Dy (screen.Bounds t) <? image.Y sz).

(** Reading the [Resize] and [Draw] calls of a run against the dirty
    flag: a [Resize] raises the flag, a [Draw] must carry the flag as it
    stands and lowers it.  [None] when some [Draw] carries another value. *)
Fixpoint flag_run (flag : bool) (rd : list Call) : option bool :=
  match rd with
  | [] => Some flag
  | Win_Resize _ :: rd' => flag_run true rd'
  | Win_Draw d _ :: rd' =>
      if Bool.eqb d flag then flag_run false rd' else None
  | _ :: rd' => flag_run flag rd'
  end.

(** Buffers (textures) allocated minus buffers (textures) released. *)
Fixpoint live_bufs (cs : list Call) : Z :=
  match cs with
  | [] => 0
  | NewBuffer_ _ :: cs' => live_bufs cs' + 1
  | Buffer_Release _ :: cs' => live_bufs cs' - 1
  | _ :: cs' => live_bufs cs'
  end.

Fixpoint live_texs (cs : list Call) : Z :=
  match cs with
  | [] => 0
  | NewTexture_ _ :: cs' => live_texs cs' + 1
  | Texture_Release _ :: cs' => live_texs cs' - 1
  | _ :: cs' => live_texs cs'
  end.

(** The buffer and the texture have one size, a size Go's [int] can
    hold, and the window fits in it. *)
Definition fits (w : win) (l : frame) : Prop :=
  screen.buf_size (buf l) = screen.tex_size (tex l)
  /\ in_int (image.X (screen.tex_size (tex l)))
  /\ in_int (image.Y (screen.tex_size (tex l)))
  /\ image.X (size w) <= image.X (screen.tex_size (tex l))
  /\ image.Y (size w) <= image.Y (screen.tex_size (tex l)).

(** A size a host reports: not negative, and small enough to double. *)
Definition sane_size (e : Event) : Prop :=
  match e with
  | size_Event se =>
      0 <= size.WidthPx se /\ 0 <= size.HeightPx se
      /\ in_int (2 * size.WidthPx se) /\ in_int (2 * size.HeightPx se)
  | _ => True
  end.

(** Whether an event is a [size.Event]. *)
Definition is_size (e : Event) : bool :=
  match e with
  | size_Event _ => true
  | _ => false
  end.

(** Calls that neither allocate nor release a buffer or a texture. *)
Definition no_alloc (c : Call) : Prop :=
  match c with
  | NewBuffer_ _ | NewTexture_ _ | Buffer_Release _ | Texture_Release _ =>
      False
  | _ => True
  end.

(** Calls that send nothing but paint requests. *)
Definition sends_paint (c : Call) : Prop :=
  match c with
  | Send_ (paint_Event _) => True
  | Send_ _ => False
  | _ => True
  end.

(** The two events on which the loop cancels the context: a resize to
    [(0,0)] and a lifecycle change to the dead stage. *)
Definition tears_down (e : Event) : bool :=
  match e with
  | size_Event se => image.Point_eqb (size.Size se) image.ZP
  | lifecycle_Event le => lifecycle.To le =? lifecycle.StageDead
  | _ => false
  end.

End Main.

(** ** A window tree to run the loop on

    [main.go] is written against [ui.Win], whose behaviour it does not
    constrain.  [blink] is a minimal tree used to execute the loop on
    concrete event sequences: it counts ticks and asks for a repaint on
    every 25th one (a cursor blinking every 500ms at the 20ms tick rate),
    and it remembers whether it has the focus. *)

Record blink := mkblink { ticks : nat; focused : bool }.

Definition blink_ops : ui.WinOps blink := {|
  ui.NewWin := fun _ => mkblink 0 false;
  ui.Resize := fun _ w => w;
  ui.Tick := fun w =>
    (Nat.eqb (Nat.modulo (S (ticks w)) 25) 0, mkblink (S (ticks w)) (focused w));
  ui.Focus := fun f w => mkblink (ticks w) f;
  ui.Draw := fun _ _ w => w;
  ui.Wheel := fun _ _ _ w => w;
  ui.Move := fun _ w => w;
  ui.Click := fun _ _ w => w;
  ui.Dir := fun _ _ w => w;
  ui.Mod := fun _ w => w;
  ui.Rune := fun _ w => w
|}.

(** A host screen on which every allocation succeeds. *)
Definition good_screen : screen.Screen :=
  screen.mkScreen true (fun _ => true) (fun _ => true).


Definition w0 : @win blink :=
  mkwin false false (72 # 1) (image.Pt 80 60) [] false (mkblink 0 false) [].

(** The locals of [poll] right after [poll_init] on [w0]. *)
Definition l0 : frame :=
  mkframe zero4 true (screen.mkBuffer (image.Pt 80 60))
          (screen.mkTexture (image.Pt 80 60)).

(** Some events to run the loop on. *)
Definition press_Home : key.Event :=
  key.mkEvent (-1) key.CodeHome 0 key.DirPress.
Definition press_Up : key.Event :=
  key.mkEvent (-1) key.CodeUpArrow 0 key.DirPress.
Definition press_Backspace : key.Event :=
  key.mkEvent 8 key.CodeDeleteBackspace 0 key.DirPress.
Definition press_Return : key.Event :=
  key.mkEvent 13 key.CodeReturnEnter 0 key.DirPress.
Definition press_a : key.Event := key.mkEvent 97 4 0 key.DirPress.

Definition move_to_3_4 : mouse.Event :=
  mouse.mkEvent (3 # 1) (4 # 1) mouse.ButtonNone 0 mouse.DirNone.
Definition step_left : mouse.Event :=
  mouse.mkEvent (10 # 1) (20 # 1) mouse.ButtonLeft 0 mouse.DirStep.
Definition step_wheel_up : mouse.Event :=
  mouse.mkEvent (10 # 1) (20 # 1) mouse.ButtonWheelUp 0 mouse.DirStep.

Definition resize_0_0 : size.Event := size.mkEvent 0 0 (1 # 1).
Definition resize_0_5 : size.Event := size.mkEvent 0 5 (1 # 1).
Definition resize_100_100 : size.Event := size.mkEvent 100 100 (1 # 1).

Definition paint_request : paint.Event := paint.mkEvent false.

(** A resize, a tick and a key, a paint request, a pointer move, a paint
    request. *)
Definition a_session : list Event :=
  size_Event resize_100_100
    :: [time_Time 0; key_Event press_a]
    ++ paint_Event paint_request
    :: [mouse_Event move_to_3_4]
    ++ paint_Event paint_request :: [].


Definition press_Alt : key.Event :=
  key.mkEvent (-1) key.CodeLeftAlt key.ModAlt key.DirPress.

Definition resize_150_200 : size.Event := size.mkEvent 150 200 (1 # 1).

(** The modifier state and the window after [press_Alt] on [w0]. *)
Definition after_Alt : bool4 * @win blink :=
  match keyEvent (ops := blink_ops) zero4 press_Alt w0 with
  | Ok x => x
  | Panic _ => (zero4, w0)
  end.

(** The locals and the window after the resize to 100 by 100. *)
Definition after_resize : (frame * bool) * @win blink :=
  match poll_case (ops := blink_ops) good_screen l0
          (size_Event resize_100_100) w0 with
  | Ok x => x
  | Panic _ => ((l0, false), w0)
  end.

(** The locals and the window after [press_a]. *)
Definition after_a : (frame * bool) * @win blink :=
  match poll_case (ops := blink_ops) good_screen l0 (key_Event press_a) w0 with
  | Ok x => x
  | Panic _ => ((l0, false), w0)
  end.

(** [poll] on [a_session], run until the queue is empty. *)
Definition session_end : (status * frame) * @win blink :=
  match poll (ops := blink_ops) 7 good_screen (with_events a_session w0) with
  | Ok x => x
  | Panic _ => ((Running, l0), w0)
  end.


(** * Properties *)

Section Properties.

Context {Win : Type} {ops : ui.WinOps Win}.

Implicit Types (w : @win Win) (l : frame) (scr : screen.Screen).

(** ** Machine integers *)

Lemma int_id (x : Z) : in_int x -> int x = x.
Proof.
  unfold in_int, int, wrap. intros H.
  rewrite Z.mod_small; lia.
Qed.

Lemma int32_in_int (x : Z) : in_int32 x -> in_int x.
Proof. unfold in_int32, in_int. lia. Qed.

Lemma int_neg_int32 (b : Z) : in_int32 b -> int_neg (int b) = - b.
Proof.
  intros H. unfold int_neg.
  rewrite (int_id b) by (apply int32_in_int; exact H).
  apply int_id. unfold in_int32, in_int in *. lia.
Qed.

(** ** Running the monad *)

Lemma yields_intro {A : Type} (m : M A) w (a : A) (cs : list Call) w' :
  m w = Ok (a, w') -> calls w' = calls w ++ cs -> yields m w a cs.
Proof. intros H1 H2. exists w'. split; assumption. Qed.

Ltac run :=
  unfold win_Resize, win_Focus, win_Draw, win_Wheel, win_Move, win_Click,
    win_Dir, win_Mod, win_Rune, on_win, log, bind, ret, panic;
  cbn [calls record with_win fst snd].

Ltac zcase :=
  match goal with
  | |- context [Z.eqb ?a ?b] => destruct (Z.eqb_spec a b)
  | |- context [Z.ltb ?a ?b] => destruct (Z.ltb_spec a b)
  end.

Ltac done_yields :=
  eapply yields_intro; [ run; reflexivity | cbn; rewrite <- ?app_assoc; reflexivity ].

(** ** [mouseEvent] *)

(** What [mouseEvent] forwards for the four wheel buttons, whatever the
    direction of the event. *)
Lemma mouseEvent_wheel (e : mouse.Event) w :
  let pt := image.Pt (int_of_float (mouse.X e)) (int_of_float (mouse.Y e)) in
  (mouse.Button e = mouse.ButtonWheelUp ->
     yields (mouseEvent e) w tt [Win_Wheel pt 0 1])
  /\ (mouse.Button e = mouse.ButtonWheelDown ->
     yields (mouseEvent e) w tt [Win_Wheel pt 0 (-1)])
  /\ (mouse.Button e = mouse.ButtonWheelLeft ->
     yields (mouseEvent e) w tt [Win_Wheel pt (-1) 0])
  /\ (mouse.Button e = mouse.ButtonWheelRight ->
     yields (mouseEvent e) w tt [Win_Wheel pt 1 0]).
Proof.
  intros pt. unfold mouseEvent. fold pt.
  repeat split; intros ->; cbn; done_yields.
Qed.

(** C1, at the input where the code departs from it.  The convention of
    [Row.Wheel] is "-y is roll up, +y is roll down"; [mouseEvent] forwards
    a wheel-up event with y = 1 (which is positive) and a wheel-down event
    with y = -1 (negative), the reverse of the convention, at every point
    and for every direction and modifier set of the event. *)
Theorem wheel_vertical_sign_reversed (x y : Q) (m d : Z) w :
  let pt := image.Pt (int_of_float x) (int_of_float y) in
  (exists dy,
      yields (mouseEvent (mouse.mkEvent x y mouse.ButtonWheelUp m d)) w tt
        [Win_Wheel pt 0 dy] /\ 0 < dy)
  /\ (exists dy,
      yields (mouseEvent (mouse.mkEvent x y mouse.ButtonWheelDown m d)) w tt
        [Win_Wheel pt 0 dy] /\ dy < 0).
Proof.
  intros pt. split.
  - exists 1. split; [ | lia ].
    apply (mouseEvent_wheel (mouse.mkEvent x y mouse.ButtonWheelUp m d) w).
    reflexivity.
  - exists (-1). split; [ | lia ].
    apply (mouseEvent_wheel (mouse.mkEvent x y mouse.ButtonWheelDown m d) w).
    reflexivity.
Qed.

(** The horizontal wheel does follow the convention, and every wheel
    event is forwarded with magnitude one. *)
Lemma wheel_horizontal_sign (x y : Q) (m d : Z) w :
  let pt := image.Pt (int_of_float x) (int_of_float y) in
  yields (mouseEvent (mouse.mkEvent x y mouse.ButtonWheelLeft m d)) w tt
    [Win_Wheel pt (-1) 0]
  /\ yields (mouseEvent (mouse.mkEvent x y mouse.ButtonWheelRight m d)) w tt
    [Win_Wheel pt 1 0].
Proof.
  intros pt. split.
  - apply (mouseEvent_wheel (mouse.mkEvent x y mouse.ButtonWheelLeft m d) w).
    reflexivity.
  - apply (mouseEvent_wheel (mouse.mkEvent x y mouse.ButtonWheelRight m d) w).
    reflexivity.
Qed.

Lemma wheel_button_false (b : Z) :
  wheel_button b = false ->
  b <> mouse.ButtonWheelUp /\ b <> mouse.ButtonWheelDown
  /\ b <> mouse.ButtonWheelLeft /\ b <> mouse.ButtonWheelRight.
Proof.
  unfold wheel_button. intros H.
  repeat (apply orb_false_elim in H; destruct H as [H ?]).
  repeat split; apply Z.eqb_neq; assumption.
Qed.

(** C9, amended: a pointer event with direction "step" whose button is
    not one of the four wheel buttons is dispatched by the loop as a press
    [Click(pt, b)] followed at once by the release [Click(pt, -b)], at the
    same point, and as nothing else. *)
Theorem step_is_press_then_release scr l (e : mouse.Event) w :
  mouse.Direction e = mouse.DirStep ->
  wheel_button (mouse.Button e) = false ->
  in_int32 (mouse.Button e) ->
  two_clicks scr l e w.
Proof.
  intros Hd Hw Hb.
  apply wheel_button_false in Hw. destruct Hw as (H1 & H2 & H3 & H4).
  unfold two_clicks, poll_case, mouseEvent, pointer.
  rewrite Hd.
  rewrite (proj2 (Z.eqb_neq _ _) H1), (proj2 (Z.eqb_neq _ _) H2),
    (proj2 (Z.eqb_neq _ _) H3), (proj2 (Z.eqb_neq _ _) H4).
  cbn [Z.eqb mouse.DirStep mouse.DirNone mouse.DirPress mouse.DirRelease].
  rewrite (int_neg_int32 _ Hb), (int_id _ (int32_in_int _ Hb)).
  done_yields.
Qed.

Lemma yields_det {A : Type} (m : M A) w (a a' : A) (cs cs' : list Call) :
  yields m w a cs -> yields m w a' cs' -> a = a' /\ cs = cs'.
Proof.
  intros (w1 & H1 & E1) (w2 & H2 & E2).
  rewrite H1 in H2. inversion H2; subst.
  split; [ reflexivity | ].
  rewrite E1 in E2. apply app_inv_head in E2. exact E2.
Qed.

(** ** [dirKey] and [dirKeyCode] *)

Lemma dirKeyCode_spec (c : Z) :
  lookup dirKeyCode c = true <->
  c = key.CodeUpArrow \/ c = key.CodeDownArrow \/ c = key.CodeLeftArrow
  \/ c = key.CodeRightArrow \/ c = key.CodePageUp \/ c = key.CodePageDown
  \/ c = key.CodeHome \/ c = key.CodeEnd.
Proof.
  unfold dirKeyCode, lookup. split.
  - repeat zcase; intros H; try discriminate H; tauto.
  - intros H; decompose [or] H; subst; reflexivity.
Qed.

(** On a directional key, [dirKey] makes one [Dir] call, with the
    arguments of the table, and does not panic. *)
Lemma dirKey_spec (e : key.Event) w :
  lookup dirKeyCode (key.Code e) = true ->
  exists x y, yields (dirKey e) w tt [Win_Dir x y]
              /\ dir_encoding (key.Code e) x y /\ one_nonzero x y.
Proof.
  intros H. apply dirKeyCode_spec in H. unfold dirKey, dir_encoding, one_nonzero.
  decompose [or] H; clear H;
    match goal with E : key.Code e = _ |- _ => rewrite E end; cbn;
    eexists; eexists; (split; [ done_yields | ]);
    (split; [ | cbn; lia ]); cbv; intuition congruence.
Qed.

(** ** [modKey] *)

Lemma modKey_reported mods (e : key.Event) :
  modKey mods e = modKey_loop 4 0 mods (reported e).
Proof.
  unfold modKey, reported.
  destruct (Z.land (key.Modifiers e) key.ModShift =? 0),
    (Z.land (key.Modifiers e) key.ModAlt =? 0),
    (Z.land (key.Modifiers e) key.ModMeta =? 0),
    (Z.land (key.Modifiers e) key.ModControl =? 0); reflexivity.
Qed.

(** The loop of [modKey]: either the two states agree on the indices it
    visits and nothing happens, or it stops at the first index [j] where
    they differ, forwards one [Mod] call for [j], and returns the whole
    of [newMods]. *)
Lemma modKey_loop_spec (n : nat) : forall (i : Z) mods newMods w,
  0 <= i ->
  i + Z.of_nat n <= 4 ->
  (yields (modKey_loop n i mods newMods) w mods []
   /\ forall k, i <= k < i + Z.of_nat n -> idx newMods k = idx mods k)
  \/ (exists j,
       i <= j < i + Z.of_nat n
       /\ (forall k, i <= k < j -> idx newMods k = idx mods k)
       /\ idx newMods j <> idx mods j
       /\ yields (modKey_loop n i mods newMods) w newMods
            [Win_Mod (if idx newMods j then j else - j)]).
Proof.
  induction n as [ | n IH ]; intros i mods newMods w Hi Hn.
  - left. split; [ | intros k Hk; lia ].
    eapply yields_intro; [ reflexivity | symmetry; apply app_nil_r ].
  - cbn [modKey_loop].
    destruct (Bool.eqb (idx newMods i) (idx mods i)) eqn:E; cbn [negb].
    + apply eqb_prop in E.
      destruct (IH (i + 1) mods newMods w) as [ [Hy Hk] | (j & Hj & Hk & Hd & Hy) ];
        try lia.
      * left. split; [ exact Hy | ].
        intros k Hk'. destruct (Z.eq_dec k i) as [-> | Hne];
          [ exact E | apply Hk; lia ].
      * right. exists j.
        split; [ lia | ].
        split; [ | split; assumption ].
        intros k Hk'. destruct (Z.eq_dec k i) as [-> | Hne];
          [ exact E | apply Hk; lia ].
    + apply eqb_false_iff in E.
      right. exists i.
      split; [ lia | ].
      split; [ intros k Hk; lia | ].
      split; [ congruence | ].
      destruct (idx newMods i); cbn [negb].
      * done_yields.
      * replace (int_neg i) with (- i)
          by (symmetry; apply int_id; unfold in_int; lia).
        done_yields.
Qed.

(** [modKey] never panics; it forwards at most one [Mod] call, and no
    other call. *)
Lemma modKey_spec mods (e : key.Event) w :
  (yields (modKey mods e) w mods []
   /\ forall k, 0 <= k < 4 -> idx (reported e) k = idx mods k)
  \/ (exists j,
       0 <= j < 4
       /\ (forall k, 0 <= k < j -> idx (reported e) k = idx mods k)
       /\ idx (reported e) j <> idx mods j
       /\ yields (modKey mods e) w (reported e)
            [Win_Mod (if idx (reported e) j then j else - j)]).
Proof.
  rewrite modKey_reported.
  apply (modKey_loop_spec 4 0 mods (reported e) w); cbn; lia.
Qed.

(** ** [keyEvent] *)

(** The event [keyEvent] works on after its first statement. *)
Lemma press_like_norm (e : key.Event) :
  press_like e ->
  (if key.Direction e =? key.DirNone
   then set_Direction e key.DirPress else e)
  = set_Direction e key.DirPress.
Proof.
  intros [H | H]; rewrite H; cbn; [ | reflexivity ].
  destruct e as [r c m d]; cbn in *; subst; reflexivity.
Qed.

Lemma not_press_like_norm (e : key.Event) :
  ~ press_like e ->
  (if key.Direction e =? key.DirNone
   then set_Direction e key.DirPress else e) = e
  /\ (key.Direction e =? key.DirPress) = false.
Proof.
  unfold press_like. intros H.
  destruct (Z.eqb_spec (key.Direction e) key.DirNone); [ tauto | ].
  destruct (Z.eqb_spec (key.Direction e) key.DirPress); tauto.
Qed.

Lemma press_like_dec (e : key.Event) : press_like e \/ ~ press_like e.
Proof.
  unfold press_like.
  destruct (Z.eq_dec (key.Direction e) key.DirPress); [ tauto | ].
  destruct (Z.eq_dec (key.Direction e) key.DirNone); tauto.
Qed.

(** A press of a directional key: one [Dir] call. *)
Lemma keyEvent_dir mods (e : key.Event) w :
  press_like e ->
  lookup dirKeyCode (key.Code e) = true ->
  exists x y, yields (keyEvent mods e) w mods [Win_Dir x y]
              /\ dir_encoding (key.Code e) x y /\ one_nonzero x y.
Proof.
  intros Hp Hl. unfold keyEvent. rewrite (press_like_norm e Hp).
  change (key.Direction (set_Direction e key.DirPress)) with key.DirPress.
  change (key.Code (set_Direction e key.DirPress)) with (key.Code e).
  rewrite Hl, Z.eqb_refl. cbn [andb].
  destruct (dirKey_spec (set_Direction e key.DirPress) w Hl)
    as (x & y & (w' & Hy & Hc) & He & Hn).
  exists x, y. split; [ | split; assumption ].
  exists w'. split; [ | exact Hc ].
  unfold bind. rewrite Hy. reflexivity.
Qed.

(** Any other key event: a positive rune is forwarded to [Rune] on a
    press and dropped on a release; a rune that is not positive sends the
    event to [modKey]. *)
Lemma keyEvent_other mods (e : key.Event) w :
  ~ (press_like e /\ lookup dirKeyCode (key.Code e) = true) ->
  (0 < typed e -> press_like e ->
     yields (keyEvent mods e) w mods [Win_Rune (typed e)])
  /\ (0 < typed e -> ~ press_like e ->
     yields (keyEvent mods e) w mods [])
  /\ (typed e <= 0 ->
     forall mods' cs,
       yields (modKey mods e) w mods' cs ->
       yields (keyEvent mods e) w mods' cs).
Proof.
  intros Hnd. unfold keyEvent, typed.
  destruct (press_like_dec e) as [Hp | Hp].
  - rewrite (press_like_norm e Hp).
    change (key.Direction (set_Direction e key.DirPress)) with key.DirPress.
    change (key.Code (set_Direction e key.DirPress)) with (key.Code e).
    change (key.Rune (set_Direction e key.DirPress)) with (key.Rune e).
    destruct (lookup dirKeyCode (key.Code e)) eqn:Hl; [ tauto | ].
    rewrite Z.eqb_refl. cbn [andb].
    repeat split; intros H; try tauto;
      repeat zcase;
      cbn [key.Direction key.Code key.Rune set_Direction set_Rune] in *;
      try lia;
      try match goal with
          | H1 : 0 < ?a, H2 : ?a <= 0 |- _ => exfalso; lia
          end;
      try (intros _; done_yields);
      try (intros mods' cs Hy; rewrite modKey_reported in *; exact Hy).
  - destruct (not_press_like_norm e Hp) as [-> Hd].
    rewrite Hd. cbn [andb].
    repeat split; intros H; try tauto;
      repeat zcase;
      cbn [key.Direction key.Code key.Rune set_Direction set_Rune] in *;
      try lia;
      try (intros _; rewrite ?Hd;
           eapply yields_intro;
           [ run; reflexivity | symmetry; apply app_nil_r ]);
      try (intros mods' cs Hy; rewrite modKey_reported in *; exact Hy).
Qed.

(** ** Relating the window before and after *)

Section Steps.

Variable R : @win Win -> @win Win -> Prop.
Hypothesis R_refl : forall w, R w w.
Hypothesis R_trans : forall w1 w2 w3, R w1 w2 -> R w2 w3 -> R w1 w3.

Lemma steps_ret {A : Type} (a : A) : steps R (ret a).
Proof. intros w a' w' H. inversion H; subst. apply R_refl. Qed.

Lemma steps_panic {A : Type} (msg : string) : steps R (@panic Win A msg).
Proof. intros w a w' H. discriminate H. Qed.

Lemma steps_bind {A B : Type} (m : M A) (k : A -> M B) :
  steps R m -> (forall a, steps R (k a)) -> steps R (bind m k).
Proof.
  intros Hm Hk w b w' H. unfold bind in H.
  destruct (m w) as [ [a w1] | msg ] eqn:E; [ | discriminate H ].
  apply (R_trans w w1 w').
  - exact (Hm w a w1 E).
  - exact (Hk a w1 b w' H).
Qed.

End Steps.

Lemma extends_refl (P : Call -> Prop) w : extends P w w.
Proof. exists []. split; [ symmetry; apply app_nil_r | constructor ]. Qed.

Lemma extends_trans (P : Call -> Prop) w1 w2 w3 :
  extends P w1 w2 -> extends P w2 w3 -> extends P w1 w3.
Proof.
  intros (c1 & E1 & F1) (c2 & E2 & F2). exists (c1 ++ c2). split.
  - rewrite E2, E1, app_assoc. reflexivity.
  - apply Forall_app. split; assumption.
Qed.

Lemma extends_one (P : Call -> Prop) (c : Call) w w' :
  P c -> calls w' = calls w ++ [c] -> extends P w w'.
Proof. intros Hc E. exists [c]. split; [ exact E | repeat constructor; exact Hc ]. Qed.

Lemma extends_none (P : Call -> Prop) w w' :
  calls w' = calls w -> extends P w w'.
Proof. intros E. exists []. split; [ rewrite E, app_nil_r; reflexivity | constructor ]. Qed.

Lemma same_but_tree_refl w : same_but_tree w w.
Proof. unfold same_but_tree. tauto. Qed.

Lemma same_but_tree_trans w1 w2 w3 :
  same_but_tree w1 w2 -> same_but_tree w2 w3 -> same_but_tree w1 w3.
Proof.
  unfold same_but_tree. intros H1 H2.
  decompose [and] H1. decompose [and] H2.
  repeat split; congruence.
Qed.

(** *** The primitive actions *)

Lemma emits_on_win (P : Call -> Prop) (c : Call) (f : Win -> Win) :
  P c -> emits P (on_win c f).
Proof.
  intros Hc w a w' H. inversion H; subst.
  apply (extends_one P c); [ exact Hc | reflexivity ].
Qed.

Lemma emits_log (P : Call -> Prop) (c : Call) : P c -> emits P (log (Win:=Win) c).
Proof.
  intros Hc w a w' H. inversion H; subst.
  apply (extends_one P c); [ exact Hc | reflexivity ].
Qed.

Lemma emits_win_Tick (P : Call -> Prop) :
  (forall r, P (Win_Tick r)) -> emits P win_Tick.
Proof.
  intros Hc w a w' H. unfold win_Tick in H.
  destruct (ui.Tick (win_ w)) as [r u]. inversion H; subst.
  apply (extends_one P (Win_Tick a)); [ apply Hc | reflexivity ].
Qed.

Lemma emits_Send (P : Call -> Prop) (e : Event) :
  P (Send_ e) -> emits P (Send (Win:=Win) e).
Proof.
  intros Hc w a w' H. inversion H; subst.
  apply (extends_one P (Send_ e)); [ exact Hc | reflexivity ].
Qed.

Lemma emits_NextEvent (P : Call -> Prop) :
  (forall e, P (NextEvent_ e)) -> emits P (NextEvent (Win:=Win)).
Proof.
  intros Hc w a w' H. unfold NextEvent in H.
  destruct (events w) as [ | e q ]; inversion H; subst.
  - apply extends_refl.
  - apply (extends_one P (NextEvent_ e)); [ apply Hc | reflexivity ].
Qed.

Lemma emits_cancel (P : Call -> Prop) : P cancel_ -> emits P (cancel (Win:=Win)).
Proof.
  intros Hc w a w' H. inversion H; subst.
  apply (extends_one P cancel_); [ exact Hc | reflexivity ].
Qed.

Lemma emits_Window_Release (P : Call -> Prop) :
  P Window_Release -> emits P (Window_Release_ (Win:=Win)).
Proof.
  intros Hc w a w' H. inversion H; subst.
  apply (extends_one P Window_Release); [ exact Hc | reflexivity ].
Qed.

Lemma emits_close_done (P : Call -> Prop) :
  P close_done -> emits P (close_done_ (Win:=Win)).
Proof.
  intros Hc w a w' H. inversion H; subst.
  apply (extends_one P close_done); [ exact Hc | reflexivity ].
Qed.

Lemma emits_set_size (P : Call -> Prop) (sz : image.Point) :
  emits P (set_size (Win:=Win) sz).
Proof.
  intros w a w' H. inversion H; subst. apply extends_none. reflexivity.
Qed.

Lemma emits_get_size (P : Call -> Prop) : emits P (get_size (Win:=Win)).
Proof.
  intros w a w' H. inversion H; subst. apply extends_refl.
Qed.

Lemma tree_on_win (c : Call) (f : Win -> Win) :
  steps same_but_tree (on_win c f).
Proof.
  intros w a w' H. inversion H; subst. cbn. unfold same_but_tree. cbn. tauto.
Qed.

(** *** The handlers of pointer and keyboard input *)

Ltac emit_step P :=
  lazymatch goal with
  | |- steps _ (ret _) => apply (steps_ret (extends P) (extends_refl P))
  | |- steps _ (panic _) => apply (steps_panic (extends P))
  | |- steps _ (bind _ _) =>
      apply (steps_bind (extends P) (extends_trans P)); [ | intros ? ]
  | |- steps _ (on_win _ _) => apply emits_on_win
  | |- steps _ (log _) => apply emits_log
  | |- steps _ win_Tick => apply emits_win_Tick; intros ?
  | |- steps _ (Send _) => apply emits_Send
  | |- steps _ NextEvent => apply emits_NextEvent; intros ?
  | |- steps _ cancel => apply emits_cancel
  | |- steps _ Window_Release_ => apply emits_Window_Release
  | |- steps _ close_done_ => apply emits_close_done
  | |- steps _ (set_size _) => apply emits_set_size
  | |- steps _ get_size => apply emits_get_size
  | |- steps _ (let _ := _ in _) => cbv zeta
  | |- steps _ (if ?c then _ else _) => destruct c eqn:?
  | |- steps _ (match ?x with _ => _ end) => destruct x eqn:?
  end.

Ltac emit_walk P := unfold emits; repeat emit_step P.

Section InputCalls.

Variable P : Call -> Prop.
Hypothesis P_Wheel : forall pt x y, P (Win_Wheel pt x y).
Hypothesis P_Move : forall pt, P (Win_Move pt).
Hypothesis P_Click : forall pt b, P (Win_Click pt b).
Hypothesis P_Dir : forall x y, P (Win_Dir x y).
Hypothesis P_Mod : forall m, P (Win_Mod m).
Hypothesis P_Rune : forall r, 0 < r -> P (Win_Rune r).

Lemma emits_mouseEvent (e : mouse.Event) : emits P (mouseEvent e).
Proof.
  unfold mouseEvent, win_Wheel, win_Move, win_Click.
  emit_walk P; auto.
Qed.

Lemma emits_modKey_loop (n : nat) : forall i mods newMods,
  emits P (modKey_loop n i mods newMods).
Proof.
  induction n as [ | n IH ]; intros i mods newMods; cbn [modKey_loop].
  - emit_walk P.
  - unfold win_Mod. emit_walk P; auto. apply IH.
Qed.

Lemma emits_keyEvent mods (e : key.Event) : emits P (keyEvent mods e).
Proof.
  unfold keyEvent. cbv zeta.
  match goal with
  | |- emits _ (if ?c then _ else _) => destruct c eqn:?
  end.
  - unfold dirKey, win_Dir. emit_walk P; auto.
  - match goal with
    | |- emits _ (if 0 <? ?r then _ else _) =>
        destruct (Z.ltb_spec 0 r)
    end.
    + unfold win_Rune. emit_walk P; auto.
    + rewrite modKey_reported. apply emits_modKey_loop.
Qed.

End InputCalls.

Lemma emits_bufTex (P : Call -> Prop) scr (sz : image.Point) :
  P (NewBuffer_ sz) -> P (NewTexture_ sz) -> emits P (bufTex (Win:=Win) scr sz).
Proof.
  intros H1 H2. unfold bufTex, NewBuffer, NewTexture.
  apply (steps_bind (extends P) (extends_trans P)).
  - emit_walk P; auto.
  - intros [ buf | ]; [ | emit_walk P ].
    apply (steps_bind (extends P) (extends_trans P)).
    + emit_walk P; auto.
    + intros [ tex | ]; emit_walk P.
Qed.

(** Every [Rune] call the loop makes has a positive argument. *)
Lemma emits_poll_case scr l (e : Event) : emits rune_ok (poll_case scr l e).
Proof.
  destruct e; cbn [poll_case];
    unfold win_Resize, win_Focus, win_Draw.
  all: try (emit_walk rune_ok; exact I).
  - emit_walk rune_ok; try exact I.
    apply emits_bufTex; exact I.
  - emit_walk rune_ok.
    apply emits_mouseEvent; intros; cbn; auto.
  - emit_walk rune_ok.
    apply emits_keyEvent; intros; cbn; auto.
Qed.

Lemma emits_poll_loop (fuel : nat) : forall scr l,
  emits rune_ok (poll_loop fuel scr l).
Proof.
  induction fuel as [ | fuel IH ]; intros scr l; cbn [poll_loop].
  - emit_walk rune_ok.
  - apply (steps_bind (extends rune_ok) (extends_trans rune_ok)).
    + apply emits_NextEvent. intros; exact I.
    + intros [ e | ]; [ | emit_walk rune_ok ].
      apply (steps_bind (extends rune_ok) (extends_trans rune_ok)).
      * apply emits_poll_case.
      * intros [l' r]. cbn [fst snd]. destruct r; [ emit_walk rune_ok | apply IH ].
Qed.

Lemma runes_positive (cs : list Call) :
  Forall rune_ok cs -> Forall (fun r => 0 < r) (runes cs).
Proof.
  induction 1 as [ | c cs Hc _ IH ]; [ constructor | ].
  destruct c; cbn; try exact IH. constructor; assumption.
Qed.

Lemma yields_nil {A : Type} (m : M A) w (a : A) w' :
  m w = Ok (a, w') -> calls w' = calls w -> yields m w a [].
Proof.
  intros H E. exists w'. split; [ exact H | ].
  rewrite E, app_nil_r. reflexivity.
Qed.

(** [keyEvent] never panics. *)
Lemma keyEvent_total mods (e : key.Event) w :
  exists mods' cs, yields (keyEvent mods e) w mods' cs.
Proof.
  destruct (press_like_dec e) as [Hp | Hp];
    [ destruct (lookup dirKeyCode (key.Code e)) eqn:Hl | ].
  - destruct (keyEvent_dir mods e w Hp Hl) as (x & y & Hy & _).
    exists mods, [Win_Dir x y]. exact Hy.
  - destruct (keyEvent_other mods e w) as (H1 & _ & H3);
      [ intros [_ H]; congruence | ].
    destruct (Z.lt_ge_cases 0 (typed e)) as [Ht | Ht].
    + exists mods, [Win_Rune (typed e)]. apply H1; assumption.
    + destruct (modKey_spec mods e w) as [ [Hy _] | (j & _ & _ & _ & Hy) ];
        eexists; eexists; apply H3; try eassumption; lia.
  - destruct (keyEvent_other mods e w) as (_ & H2 & H3); [ tauto | ].
    destruct (Z.lt_ge_cases 0 (typed e)) as [Ht | Ht].
    + exists mods, []. apply H2; assumption.
    + destruct (modKey_spec mods e w) as [ [Hy _] | (j & _ & _ & _ & Hy) ];
        eexists; eexists; apply H3; try eassumption; lia.
Qed.

(** Unless the event is a press of a directional key, [keyEvent] makes
    no [Dir] call: it makes no call at all, or one [Rune] call, or one
    [Mod] call. *)
Lemma keyEvent_no_dir mods (e : key.Event) w mods' cs :
  ~ (press_like e /\ lookup dirKeyCode (key.Code e) = true) ->
  yields (keyEvent mods e) w mods' cs ->
  cs = [] \/ (exists r, cs = [Win_Rune r]) \/ (exists m, cs = [Win_Mod m]).
Proof.
  intros Hnd Hy.
  destruct (keyEvent_other mods e w Hnd) as (H1 & H2 & H3).
  destruct (Z.lt_ge_cases 0 (typed e)) as [Ht | Ht].
  - destruct (press_like_dec e) as [Hp | Hp].
    + destruct (yields_det _ _ _ _ _ _ Hy (H1 Ht Hp)) as [_ ->]. eauto.
    + destruct (yields_det _ _ _ _ _ _ Hy (H2 Ht Hp)) as [_ ->]. eauto.
  - destruct (modKey_spec mods e w) as [ [Hm _] | (j & _ & _ & _ & Hm) ];
      apply (H3 Ht) in Hm;
      destruct (yields_det _ _ _ _ _ _ Hy Hm) as [_ ->]; eauto.
Qed.

(** The table of the claim gives each key one pair of arguments. *)
Lemma dir_encoding_fun (c x y x' y' : Z) :
  dir_encoding c x y -> dir_encoding c x' y' -> x = x' /\ y = y'.
Proof.
  unfold dir_encoding, key.CodeUpArrow, key.CodeDownArrow, key.CodeLeftArrow,
    key.CodeRightArrow, key.CodePageUp, key.CodePageDown, key.CodeHome,
    key.CodeEnd.
  intros H1 H2.
  decompose [or and] H1; decompose [or and] H2; subst;
    try discriminate; split; reflexivity.
Qed.

(** A press of the key with code [c], one of the eight of the table. *)
Lemma keyEvent_dir_at mods (e : key.Event) w (c x y : Z) :
  press_like e ->
  key.Code e = c ->
  dir_encoding c x y ->
  yields (keyEvent mods e) w mods [Win_Dir x y].
Proof.
  intros Hp Hc He.
  assert (Hl : lookup dirKeyCode (key.Code e) = true).
  { apply dirKeyCode_spec. rewrite Hc. unfold dir_encoding in He. tauto. }
  destruct (keyEvent_dir mods e w Hp Hl) as (x' & y' & Hy & He' & _).
  rewrite Hc in He'.
  destruct (dir_encoding_fun c x y x' y' He He') as [-> ->].
  exact Hy.
Qed.

(** C3: a press of a directional key makes the loop call [Dir] once, as
    follows: the up, down, left and right arrows give y = -1, y = 1,
    x = -1 and x = 1, the other argument being 0; PageUp and PageDown
    give y = -2 and y = 2; Home gives y = -2^15, the least 16-bit signed
    integer, and End gives y = 2^15 - 1, the greatest.  Whenever
    [keyEvent] calls [Dir], the event is a press of one of these eight
    keys, never a release, the arguments are those of the key, exactly
    one of them is non-zero, and the call is the only call made.  (An
    event without direction is a press to [keyEvent].) *)
Theorem dir_key_press mods (e : key.Event) w :
  (press_like e ->
   (key.Code e = key.CodeUpArrow ->
    yields (keyEvent mods e) w mods [Win_Dir 0 (-1)])
   /\ (key.Code e = key.CodeDownArrow ->
       yields (keyEvent mods e) w mods [Win_Dir 0 1])
   /\ (key.Code e = key.CodeLeftArrow ->
       yields (keyEvent mods e) w mods [Win_Dir (-1) 0])
   /\ (key.Code e = key.CodeRightArrow ->
       yields (keyEvent mods e) w mods [Win_Dir 1 0])
   /\ (key.Code e = key.CodePageUp ->
       yields (keyEvent mods e) w mods [Win_Dir 0 (-2)])
   /\ (key.Code e = key.CodePageDown ->
       yields (keyEvent mods e) w mods [Win_Dir 0 2])
   /\ (key.Code e = key.CodeHome ->
       yields (keyEvent mods e) w mods [Win_Dir 0 (- 2 ^ 15)])
   /\ (key.Code e = key.CodeEnd ->
       yields (keyEvent mods e) w mods [Win_Dir 0 (2 ^ 15 - 1)]))
  /\ (forall mods' cs x y,
       yields (keyEvent mods e) w mods' cs ->
       In (x, y) (dirs cs) ->
       key.Direction e <> key.DirRelease
       /\ press_like e
       /\ dir_encoding (key.Code e) x y
       /\ one_nonzero x y
       /\ cs = [Win_Dir x y]
       /\ mods' = mods).
Proof.
  split.
  - intros Hp.
    repeat split; intros Hc;
      apply (keyEvent_dir_at mods e w _ _ _ Hp Hc);
      unfold dir_encoding; tauto.
  - intros mods' cs x y Hy Hin.
    destruct (press_like_dec e) as [Hp | Hp];
      [ destruct (lookup dirKeyCode (key.Code e)) eqn:Hl | ].
    + destruct (keyEvent_dir mods e w Hp Hl) as (x' & y' & Hd & He & Hn).
      destruct (yields_det _ _ _ _ _ _ Hy Hd) as [-> ->].
      destruct Hin as [Hin | [] ]. inversion Hin; subst x' y'.
      split; [ destruct Hp as [Hp | Hp]; rewrite Hp; discriminate | ].
      repeat split; assumption.
    + exfalso.
      destruct (keyEvent_no_dir mods e w mods' cs) as [-> | [ [r ->] | [m ->] ] ];
        [ intros [_ H]; congruence | exact Hy | | | ]; exact Hin.
    + exfalso.
      destruct (keyEvent_no_dir mods e w mods' cs) as [-> | [ [r ->] | [m ->] ] ];
        [ tauto | exact Hy | | | ]; exact Hin.
Qed.

(** C6: a press of Backspace reaches the tree as [Rune('\b')] (8), a
    press of forward-delete as [Rune(0x7F)] (127), each as that one call;
    and no event of either key, press or release, makes a [Dir] call. *)
Theorem delete_keys_are_runes mods (e : key.Event) w :
  (press_like e -> key.Code e = key.CodeDeleteBackspace ->
   yields (keyEvent mods e) w mods [Win_Rune 8])
  /\ (press_like e -> key.Code e = key.CodeDeleteForward ->
   yields (keyEvent mods e) w mods [Win_Rune 127])
  /\ (key.Code e = key.CodeDeleteBackspace
      \/ key.Code e = key.CodeDeleteForward ->
      forall mods' cs, yields (keyEvent mods e) w mods' cs -> dirs cs = []).
Proof.
  split; [ | split ].
  - intros Hp Hc.
    destruct (keyEvent_other mods e w) as (H1 & _ & _).
    + rewrite Hc. intros [_ H]. discriminate H.
    + unfold typed in H1. rewrite Hc in H1. apply H1; [ reflexivity | exact Hp ].
  - intros Hp Hc.
    destruct (keyEvent_other mods e w) as (H1 & _ & _).
    + rewrite Hc. intros [_ H]. discriminate H.
    + unfold typed in H1. rewrite Hc in H1. apply H1; [ reflexivity | exact Hp ].
  - intros Hc mods' cs Hy.
    destruct (keyEvent_no_dir mods e w mods' cs) as [-> | [ [r ->] | [m ->] ] ];
      try reflexivity; try exact Hy.
    intros [_ H]. destruct Hc as [Hc | Hc]; rewrite Hc in H; discriminate H.
Qed.

Lemma typed_pos (e : key.Event) : 0 < key.Rune e -> 0 < typed e.
Proof. unfold typed. intros H. repeat zcase; lia. Qed.

(** C10: the loop never calls [Rune] with an argument that is not
    positive, however long it runs; a key release carrying a printable
    (positive) rune is dropped, with no call at all; an event without
    direction is handled exactly as the same event with direction press;
    and a press of the return key carrying '\r' (13) reaches [Rune] as
    '\n' (10). *)
Theorem rune_never_nonpositive mods (e : key.Event) w :
  (forall fuel scr l w1 r w2,
      poll_loop fuel scr l w1 = Ok (r, w2) ->
      exists cs, calls w2 = calls w1 ++ cs
                 /\ Forall (fun r => 0 < r) (runes cs))
  /\ (key.Direction e = key.DirRelease -> 0 < key.Rune e ->
      yields (keyEvent mods e) w mods [])
  /\ (key.Direction e = key.DirNone ->
      keyEvent mods e w = keyEvent mods (set_Direction e key.DirPress) w)
  /\ (press_like e -> key.Code e = key.CodeReturnEnter -> key.Rune e = 13 ->
      yields (keyEvent mods e) w mods [Win_Rune 10]).
Proof.
  split; [ | split; [ | split ] ].
  - intros fuel scr l w1 r w2 H.
    destruct (emits_poll_loop fuel scr l w1 r w2 H) as (cs & E & F).
    exists cs. split; [ exact E | apply runes_positive; exact F ].
  - intros Hd Hr.
    assert (Hp : ~ press_like e).
    { unfold press_like. rewrite Hd. intros [H | H]; discriminate H. }
    destruct (keyEvent_other mods e w) as (_ & H2 & _); [ tauto | ].
    apply H2; [ apply typed_pos; exact Hr | exact Hp ].
  - intros Hd. unfold keyEvent. rewrite Hd. reflexivity.
  - intros Hp Hc Hr.
    destruct (keyEvent_other mods e w) as (H1 & _ & _).
    + rewrite Hc. intros [_ H]. discriminate H.
    + unfold typed in H1. rewrite Hc, Hr in H1.
      apply H1; [ reflexivity | exact Hp ].
Qed.

(** ** The modifier state *)

(** [poll] starts with no modifier set and the dirty flag raised. *)
Lemma poll_init_locals scr w l w' :
  poll_init scr w = Ok (l, w') -> mods l = zero4 /\ dirty l = true.
Proof.
  unfold poll_init, bufTex, NewBuffer, NewTexture, get_size.
  run.
  destruct (screen.NewBuffer_ok scr (size w)); [ | discriminate ].
  destruct (screen.NewTexture_ok scr (size w)); [ | discriminate ].
  intros H. inversion H; subst. split; reflexivity.
Qed.

(** What holds of [modKey] for every key event: it forwards at most one
    [Mod] call; the call is for the least index [j] whose flag differs,
    positive when the flag is now set and negative when it is now clear;
    and a flag that was set and is reported set stays set. *)
Lemma modKey_edge mods (e : key.Event) w :
  exists mods' cs,
    yields (modKey mods e) w mods' cs
    /\ (List.length (modcalls cs) <= 1)%nat
    /\ (forall m, In m (modcalls cs) ->
          exists j, 0 <= j < 4
                    /\ m = (if idx mods' j then j else - j)
                    /\ idx mods j <> idx mods' j)
    /\ (forall k, 0 <= k < 4 ->
          idx mods k = true -> idx (reported e) k = true ->
          idx mods' k = true).
Proof.
  destruct (modKey_spec mods e w) as [ [Hy Hk] | (j & Hj & Hk & Hd & Hy) ].
  - exists mods, []. split; [ exact Hy | ].
    split; [ cbn; lia | ]. split; [ intros m [] | ]. auto.
  - exists (reported e), [Win_Mod (if idx (reported e) j then j else - j)].
    split; [ exact Hy | ].
    split; [ cbn; lia | ]. split; [ | auto ].
    intros m [<- | [] ]. exists j.
    split; [ exact Hj | ]. split; [ reflexivity | congruence ].
Qed.

(** C2, at the input where the code departs from it: with no modifier
    set, a key event that reports shift and alt together makes [keyEvent]
    forward the single call [Mod(1)] and return a state in which two
    flags, shift and alt, have changed; the change of alt is never
    forwarded. *)
Theorem two_modifiers_in_one_event w :
  let e := key.mkEvent (-1) key.CodeLeftAlt
             (Z.lor key.ModShift key.ModAlt) key.DirPress in
  yields (keyEvent zero4 e) w (B4 false true true false) [Win_Mod 1]
  /\ changed zero4 (B4 false true true false) = 2%nat.
Proof.
  intros e. split; [ | reflexivity ].
  unfold e, keyEvent, modKey. cbn. unfold win_Mod. done_yields.
Qed.

(** ** Ticks *)

(** C4: when the loop handles a tick it calls [Tick] on the tree once,
    and it puts a paint request on the queue if and only if that call
    returned true; when it returned false nothing is sent. *)
Theorem tick_paints_iff_Tick scr l (t : Z) w :
  let r := fst (ui.Tick (win_ w)) in
  exists w' cs,
    poll_case scr l (time_Time t) w = Ok ((l, false), w')
    /\ calls w' = calls w ++ Win_Tick r :: cs
    /\ events w' = events w ++ sent cs
    /\ (sent cs = [paint_Event (paint.mkEvent false)] <-> r = true)
    /\ (cs = [] <-> r = false).
Proof.
  unfold poll_case, win_Tick, Send, bind, ret.
  destruct (ui.Tick (win_ w)) as [r u]. cbn [fst].
  destruct r.
  - eexists. exists [Send_ (paint_Event (paint.mkEvent false))].
    split; [ reflexivity | ]. cbn.
    split; [ rewrite <- app_assoc; reflexivity | ].
    split; [ reflexivity | ].
    split; split; intros H; try reflexivity; discriminate H.
  - eexists. exists [].
    split; [ reflexivity | ]. cbn.
    split; [ reflexivity | ].
    split; [ symmetry; apply app_nil_r | ].
    split; split; intros H; try reflexivity; discriminate H.
Qed.

(** ** Resizes *)

Lemma Point_eqb_eq (p q : image.Point) :
  image.Point_eqb p q = true <-> p = q.
Proof.
  unfold image.Point_eqb. destruct p as [x y], q as [x' y']. cbn.
  rewrite andb_true_iff, !Z.eqb_eq. split.
  - intros [-> ->]. reflexivity.
  - intros H. inversion H. split; reflexivity.
Qed.

Lemma Point_eqb_neq (p q : image.Point) :
  image.Point_eqb p q = false <-> p <> q.
Proof.
  rewrite <- Point_eqb_eq. destruct (image.Point_eqb p q); split; congruence.
Qed.

(** The test [b.Dx() < w.size.X || b.Dy() < w.size.Y]. *)
Lemma exceeds_test (t : screen.Texture) (sz : image.Point) :
  in_int (image.X (screen.tex_size t)) ->
  in_int (image.Y (screen.tex_size t)) ->
  (image.Dx (screen.Bounds t) <? image.X sz)
  || (image.Dy (screen.Bounds t) <? image.Y sz) = true
  <-> exceeds t sz.
Proof.
  intros Hx Hy. unfold exceeds, image.Dx, image.Dy, screen.Bounds, int_sub.
  cbn [image.Max image.Min image.X image.Y image.ZP].
  rewrite !Z.sub_0_r, (int_id _ Hx), (int_id _ Hy).
  rewrite orb_true_iff, !Z.ltb_lt. tauto.
Qed.

Lemma Mul_2 (sz : image.Point) :
  in_int (2 * image.X sz) -> in_int (2 * image.Y sz) ->
  image.Mul sz 2 = image.Pt (2 * image.X sz) (2 * image.Y sz).
Proof.
  intros Hx Hy. unfold image.Mul, int_mul.
  rewrite (Z.mul_comm (image.X sz)), (Z.mul_comm (image.Y sz)).
  rewrite (int_id _ Hx), (int_id _ Hy). reflexivity.
Qed.

Lemma bufTex_ok scr (sz : image.Point) w :
  can_alloc scr sz ->
  yields (bufTex scr sz) w (screen.mkBuffer sz, screen.mkTexture sz)
    [NewBuffer_ sz; NewTexture_ sz].
Proof.
  intros [Hb Ht]. unfold bufTex, NewBuffer, NewTexture.
  rewrite Hb, Ht. done_yields.
Qed.

Ltac run_resize :=
  unfold set_size, get_size, win_Resize, on_win, log, bind, ret, bufTex,
    NewBuffer, NewTexture;
  cbn [calls record with_win fst snd size win_ ctx_Done done dpi events
       released tex buf mods dirty].

(** A size other than [(0,0)] that does not fit the texture: the tree is
    resized, the old texture and buffer are released, and a new pair is
    allocated at [sz.Mul(2)]. *)
Lemma resize_grows scr l (e : size.Event) w :
  size.Size e <> image.ZP ->
  in_int (image.X (screen.tex_size (tex l))) ->
  in_int (image.Y (screen.tex_size (tex l))) ->
  exceeds (tex l) (size.Size e) ->
  can_alloc scr (image.Mul (size.Size e) 2) ->
  exists w',
    poll_case scr l (size_Event e) w
    = Ok ((mkframe (mods l) true
             (screen.mkBuffer (image.Mul (size.Size e) 2))
             (screen.mkTexture (image.Mul (size.Size e) 2)), false), w')
    /\ ctx_Done w' = ctx_Done w
    /\ size w' = size.Size e
    /\ events w' = events w
    /\ calls w' = calls w ++
         [ Win_Resize (size.Size e);
           Texture_Release (tex l); Buffer_Release (buf l);
           NewBuffer_ (image.Mul (size.Size e) 2);
           NewTexture_ (image.Mul (size.Size e) 2) ].
Proof.
  intros Hz Hx Hy He [Hb Ht].
  apply Point_eqb_neq in Hz.
  apply (exceeds_test (tex l) (size.Size e) Hx Hy) in He.
  unfold poll_case. rewrite Hz. run_resize.
  rewrite He, Hb. cbn [calls]. rewrite Ht.
  eexists. split; [ reflexivity | ].
  cbn. rewrite <- !app_assoc. repeat split.
Qed.

(** A size other than [(0,0)] that fits: the tree is resized and the
    texture and the buffer stay as they are. *)
Lemma resize_fits scr l (e : size.Event) w :
  size.Size e <> image.ZP ->
  in_int (image.X (screen.tex_size (tex l))) ->
  in_int (image.Y (screen.tex_size (tex l))) ->
  ~ exceeds (tex l) (size.Size e) ->
  exists w',
    poll_case scr l (size_Event e) w
    = Ok ((mkframe (mods l) true (buf l) (tex l), false), w')
    /\ ctx_Done w' = ctx_Done w
    /\ size w' = size.Size e
    /\ events w' = events w
    /\ calls w' = calls w ++ [Win_Resize (size.Size e)].
Proof.
  intros Hz Hx Hy He.
  apply Point_eqb_neq in Hz.
  pose proof (exceeds_test (tex l) (size.Size e) Hx Hy) as Ht.
  unfold poll_case. rewrite Hz. run_resize.
  destruct ((image.Dx (screen.Bounds (tex l)) <? image.X (size.Size e))
            || (image.Dy (screen.Bounds (tex l)) <? image.Y (size.Size e)))
    eqn:E; [ exfalso; apply He, Ht; reflexivity | ].
  eexists. split; [ reflexivity | ]. cbn. repeat split.
Qed.

(** The size [(0,0)]: the context is cancelled and nothing else is done. *)
Lemma resize_zero scr l (e : size.Event) w :
  size.Size e = image.ZP -> begins_teardown scr l e w.
Proof.
  intros Hz. apply Point_eqb_eq in Hz.
  unfold begins_teardown, poll_case. rewrite Hz.
  unfold cancel, bind, ret.
  eexists. split; [ reflexivity | ]. cbn. repeat split.
Qed.

(** C5, amended: a resize to the size (0,0), and no other, is the signal
    to tear down: the loop cancels the context and does nothing else (the
    size is kept, the tree is not resized, no error is raised).  Every
    other resize, including one to a size of area zero with one dimension
    non-zero, is applied: the size is stored, the tree is resized and the
    dirty flag is raised, and the context is not cancelled. *)
Theorem zero_size_begins_teardown scr l (e : size.Event) w :
  (size.Size e = image.ZP -> begins_teardown scr l e w)
  /\ (size.Size e <> image.ZP ->
      can_alloc scr (image.Mul (size.Size e) 2) ->
      applies_resize scr l e w).
Proof.
  split; [ apply resize_zero | ].
  intros Hz [Hb Ht]. apply Point_eqb_neq in Hz.
  unfold applies_resize, poll_case. rewrite Hz. run_resize.
  destruct ((image.Dx (screen.Bounds (tex l)) <? image.X (size.Size e))
            || (image.Dy (screen.Bounds (tex l)) <? image.Y (size.Size e))).
  - rewrite Hb. cbn [calls]. rewrite Ht.
    eexists. eexists.
    exists [ Texture_Release (tex l); Buffer_Release (buf l);
             NewBuffer_ (image.Mul (size.Size e) 2);
             NewTexture_ (image.Mul (size.Size e) 2) ].
    split; [ reflexivity | ]. cbn. rewrite <- !app_assoc.
    repeat split. intros H. cbn in H. intuition discriminate.
  - eexists. eexists. exists [].
    split; [ reflexivity | ]. cbn. repeat split. intros [].
Qed.

(** Once the context is cancelled, the [tick] goroutine can take the
    [ctx.Done] case: it sends [done] and stops. *)
Lemma tick_after_cancel w :
  ctx_Done w = true ->
  exists w', tick ctx_Done_ w = Ok (Some false, w')
             /\ events w' = events w ++ [done_].
Proof.
  intros H. unfold tick. rewrite H.
  eexists. split; reflexivity.
Qed.

(** On [done] the loop releases the buffer, the texture and the window,
    closes [w.done] and returns. *)
Lemma done_releases scr l w :
  exists w', poll_case scr l done_ w = Ok ((l, true), w')
             /\ released w' = true /\ done w' = true
             /\ calls w' = calls w ++
                  [ Buffer_Release (buf l); Texture_Release (tex l);
                    Window_Release; close_done ].
Proof.
  eexists. split; [ reflexivity | ].
  cbn. rewrite <- !app_assoc. repeat split.
Qed.

(** C7: when the loop applies a resize, the texture and the buffer are
    reallocated exactly when the requested size exceeds the texture in
    width or in height.  Then the old texture and buffer are released
    first and the new pair is allocated at twice the requested size; when
    the requested size fits, both are kept as they are, however much
    smaller the request. *)
Theorem realloc_exactly_on_overflow scr l (e : size.Event) w :
  size.Size e <> image.ZP ->
  in_int (image.X (screen.tex_size (tex l))) ->
  in_int (image.Y (screen.tex_size (tex l))) ->
  in_int (2 * size.WidthPx e) ->
  in_int (2 * size.HeightPx e) ->
  let twice := image.Pt (2 * size.WidthPx e) (2 * size.HeightPx e) in
  (exceeds (tex l) (size.Size e) ->
   can_alloc scr twice ->
   yields (poll_case scr l (size_Event e)) w
     (mkframe (mods l) true (screen.mkBuffer twice) (screen.mkTexture twice),
      false)
     [ Win_Resize (size.Size e);
       Texture_Release (tex l); Buffer_Release (buf l);
       NewBuffer_ twice; NewTexture_ twice ])
  /\ (~ exceeds (tex l) (size.Size e) ->
      yields (poll_case scr l (size_Event e)) w
        (mkframe (mods l) true (buf l) (tex l), false)
        [ Win_Resize (size.Size e) ]).
Proof.
  intros Hz Hx Hy Hw Hh twice.
  assert (Hm : image.Mul (size.Size e) 2 = twice)
    by (apply (Mul_2 (size.Size e)); assumption).
  split.
  - intros He Ha. rewrite <- Hm in *.
    destruct (resize_grows scr l e w Hz Hx Hy He Ha) as (w' & H & _ & _ & _ & Hc).
    exists w'. split; assumption.
  - intros He.
    destruct (resize_fits scr l e w Hz Hx Hy He) as (w' & H & _ & _ & _ & Hc).
    exists w'. split; assumption.
Qed.

(** ** Input events leave the size, the queue and the redraw state alone *)

Ltac tree_step :=
  lazymatch goal with
  | |- steps _ (ret _) => apply (steps_ret same_but_tree same_but_tree_refl)
  | |- steps _ (panic _) => apply (steps_panic same_but_tree)
  | |- steps _ (bind _ _) =>
      apply (steps_bind same_but_tree same_but_tree_trans); [ | intros ? ]
  | |- steps _ (on_win _ _) => apply tree_on_win
  | |- steps _ (let _ := _ in _) => cbv zeta
  | |- steps _ (if ?c then _ else _) => destruct c
  | |- steps _ (match ?x with _ => _ end) => destruct x
  end.

Lemma tree_mouseEvent (e : mouse.Event) : steps same_but_tree (mouseEvent e).
Proof.
  unfold mouseEvent, win_Wheel, win_Move, win_Click. repeat tree_step.
Qed.

Lemma tree_modKey_loop (n : nat) : forall i mods newMods,
  steps same_but_tree (modKey_loop n i mods newMods).
Proof.
  induction n as [ | n IH ]; intros i mods newMods; cbn [modKey_loop].
  - repeat tree_step.
  - unfold win_Mod. repeat tree_step. apply IH.
Qed.

Lemma tree_keyEvent mods (e : key.Event) :
  steps same_but_tree (keyEvent mods e).
Proof.
  unfold keyEvent. cbv zeta.
  tree_step.
  - unfold dirKey, win_Dir. repeat tree_step.
  - tree_step.
    + unfold win_Rune. repeat tree_step.
    + rewrite modKey_reported. apply tree_modKey_loop.
Qed.

(** [mouseEvent] never panics. *)
Lemma mouseEvent_total (e : mouse.Event) w :
  exists w', mouseEvent e w = Ok (tt, w').
Proof.
  unfold mouseEvent. repeat zcase; run; eexists; reflexivity.
Qed.

Lemma input_calls (cs : list Call) :
  Forall is_input cs -> redraws cs = [] /\ received cs = [] /\ sent cs = [].
Proof.
  induction 1 as [ | c cs Hc _ IH ]; [ repeat split | ].
  destruct c; cbn in Hc; try contradiction; exact IH.
Qed.

Lemma is_input_Rune (r : Z) : 0 < r -> is_input (Win_Rune r).
Proof. intros _. exact I. Qed.

(** What a quiet event does: the loop goes on; the dirty flag, the
    buffer, the texture and the size are as before; the tree is neither
    resized nor drawn; nothing is taken from the queue, and what is sent
    goes to its back. *)
Lemma quiet_case scr l (e : Event) w :
  quiet e = true ->
  exists l' w' cs,
    poll_case scr l e w = Ok ((l', false), w')
    /\ dirty l' = dirty l /\ buf l' = buf l /\ tex l' = tex l
    /\ size w' = size w
    /\ calls w' = calls w ++ cs
    /\ redraws cs = [] /\ received cs = []
    /\ events w' = events w ++ sent cs.
Proof.
  destruct e as [ | t | e | e | e | e | e | ]; intros Hq; try discriminate Hq.
  - (* a tick *)
    cbn [poll_case]. unfold win_Tick, Send, bind, ret.
    destruct (ui.Tick (win_ w)) as [r u]. destruct r.
    + exists l. eexists.
      exists [Win_Tick true; Send_ (paint_Event (paint.mkEvent false))].
      split; [ reflexivity | ]. cbn. rewrite <- app_assoc. repeat split.
    + exists l. eexists. exists [Win_Tick false].
      split; [ reflexivity | ]. cbn. rewrite app_nil_r. repeat split.
  - (* a lifecycle event *)
    cbn [poll_case]. unfold cancel, win_Focus, on_win, bind, ret.
    destruct (lifecycle.To e =? lifecycle.StageDead).
    + exists l. eexists. exists [cancel_].
      split; [ reflexivity | ]. cbn. rewrite app_nil_r. repeat split.
    + exists l. eexists.
      exists [Win_Focus (lifecycle.To e =? lifecycle.StageFocused)].
      split; [ reflexivity | ]. cbn. rewrite app_nil_r. repeat split.
  - (* a pointer event *)
    destruct (mouseEvent_total e w) as (w' & H).
    destruct (emits_mouseEvent is_input) with (e := e) (w := w) (a := tt) (w' := w')
      as (cs & Hc & Hf); try (intros; exact I); try exact H.
    destruct (tree_mouseEvent e w tt w' H) as (_ & _ & _ & Hs & He & _).
    destruct (input_calls cs Hf) as (H1 & H2 & H3).
    exists l, w', cs. unfold poll_case, bind, ret. rewrite H.
    rewrite H3, app_nil_r. repeat split; assumption.
  - (* a key event *)
    destruct (keyEvent_total (mods l) e w) as (mods' & cs0 & w' & H & _).
    destruct (emits_keyEvent is_input) with (mods := mods l) (e := e) (w := w)
      (a := mods') (w' := w') as (cs & Hc & Hf);
      try (intros; exact I); try exact H.
    destruct (tree_keyEvent (mods l) e w mods' w' H) as (_ & _ & _ & Hs & He & _).
    destruct (input_calls cs Hf) as (H1 & H2 & H3).
    exists (mkframe mods' (dirty l) (buf l) (tex l)), w', cs.
    unfold poll_case, bind, ret. rewrite H.
    rewrite H3, app_nil_r. repeat split; assumption.
  - (* any other event *)
    exists l, w, []. cbn. rewrite !app_nil_r. repeat split.
Qed.

(** ** Arrival order *)

Lemma received_app (a b : list Call) :
  received (a ++ b) = received a ++ received b.
Proof. apply flat_map_app. Qed.

Lemma sent_app (a b : list Call) : sent (a ++ b) = sent a ++ sent b.
Proof. apply flat_map_app. Qed.

Lemma redraws_app (a b : list Call) :
  redraws (a ++ b) = redraws a ++ redraws b.
Proof. apply filter_app. Qed.

Lemma fifo_refl w : fifo w w.
Proof. exists []. cbn. rewrite !app_nil_r. split; reflexivity. Qed.

Lemma fifo_trans w1 w2 w3 : fifo w1 w2 -> fifo w2 w3 -> fifo w1 w3.
Proof.
  intros (c1 & E1 & F1) (c2 & E2 & F2). exists (c1 ++ c2). split.
  - rewrite E2, E1, app_assoc. reflexivity.
  - rewrite received_app, sent_app, <- app_assoc, F2.
    rewrite !app_assoc, F1. reflexivity.
Qed.

(** A call that neither takes from the queue nor puts on it. *)
Lemma fifo_call (c : Call) w w' :
  received [c] = [] -> sent [c] = [] ->
  calls w' = calls w ++ [c] -> events w' = events w -> fifo w w'.
Proof.
  intros Hr Hs Hc He. exists [c]. split; [ exact Hc | ].
  rewrite Hr, Hs, He, app_nil_r. reflexivity.
Qed.

Lemma fifo_on_win (c : Call) (f : Win -> Win) :
  received [c] = [] -> sent [c] = [] -> steps fifo (on_win c f).
Proof.
  intros Hr Hs w a w' H. inversion H; subst.
  apply (fifo_call c); auto.
Qed.

Lemma fifo_log (c : Call) :
  received [c] = [] -> sent [c] = [] -> steps fifo (log (Win:=Win) c).
Proof.
  intros Hr Hs w a w' H. inversion H; subst.
  apply (fifo_call c); auto.
Qed.

Lemma fifo_win_Tick : steps fifo win_Tick.
Proof.
  intros w a w' H. unfold win_Tick in H.
  destruct (ui.Tick (win_ w)) as [r u]. inversion H; subst.
  apply (fifo_call (Win_Tick a)); auto.
Qed.

Lemma fifo_Send (e : Event) : steps fifo (Send (Win:=Win) e).
Proof.
  intros w a w' H. inversion H; subst.
  exists [Send_ e]. split; reflexivity.
Qed.

Lemma fifo_NextEvent : steps fifo (NextEvent (Win:=Win)).
Proof.
  intros w a w' H. unfold NextEvent in H.
  destruct (events w) as [ | e q ] eqn:E; inversion H; subst.
  - apply fifo_refl.
  - exists [NextEvent_ e]. split; [ reflexivity | ].
    cbn. rewrite E, app_nil_r. reflexivity.
Qed.

Lemma fifo_cancel : steps fifo (cancel (Win:=Win)).
Proof.
  intros w a w' H. inversion H; subst. apply (fifo_call cancel_); auto.
Qed.

Lemma fifo_Window_Release : steps fifo (Window_Release_ (Win:=Win)).
Proof.
  intros w a w' H. inversion H; subst. apply (fifo_call Window_Release); auto.
Qed.

Lemma fifo_close_done : steps fifo (close_done_ (Win:=Win)).
Proof.
  intros w a w' H. inversion H; subst. apply (fifo_call close_done); auto.
Qed.

Lemma fifo_set_size (sz : image.Point) : steps fifo (set_size (Win:=Win) sz).
Proof.
  intros w a w' H. inversion H; subst.
  exists []. cbn. rewrite !app_nil_r. split; reflexivity.
Qed.

Lemma fifo_get_size : steps fifo (get_size (Win:=Win)).
Proof. intros w a w' H. inversion H; subst. apply fifo_refl. Qed.

Ltac fifo_step :=
  lazymatch goal with
  | |- steps _ (ret _) => apply (steps_ret fifo fifo_refl)
  | |- steps _ (panic _) => apply (steps_panic fifo)
  | |- steps _ (bind _ _) =>
      apply (steps_bind fifo fifo_trans); [ | intros ? ]
  | |- steps _ (on_win _ _) => apply fifo_on_win; reflexivity
  | |- steps _ (log _) => apply fifo_log; reflexivity
  | |- steps _ win_Tick => apply fifo_win_Tick
  | |- steps _ (Send _) => apply fifo_Send
  | |- steps _ NextEvent => apply fifo_NextEvent
  | |- steps _ cancel => apply fifo_cancel
  | |- steps _ Window_Release_ => apply fifo_Window_Release
  | |- steps _ close_done_ => apply fifo_close_done
  | |- steps _ (set_size _) => apply fifo_set_size
  | |- steps _ get_size => apply fifo_get_size
  | |- steps _ (let _ := _ in _) => cbv zeta
  | |- steps _ (if ?c then _ else _) => destruct c
  | |- steps _ (match ?x with _ => _ end) => destruct x
  end.

Lemma fifo_modKey_loop (n : nat) : forall i mods newMods,
  steps fifo (modKey_loop n i mods newMods).
Proof.
  induction n as [ | n IH ]; intros i mods newMods; cbn [modKey_loop].
  - repeat fifo_step.
  - unfold win_Mod. repeat fifo_step. apply IH.
Qed.

Lemma fifo_poll_case scr l (e : Event) : steps fifo (poll_case scr l e).
Proof.
  destruct e; cbn [poll_case];
    unfold win_Resize, win_Focus, win_Draw, mouseEvent, keyEvent, dirKey,
      win_Wheel, win_Move, win_Click, win_Dir, win_Rune, bufTex, NewBuffer,
      NewTexture;
    repeat fifo_step.
  rewrite modKey_reported. apply fifo_modKey_loop.
Qed.

(** However long the loop runs, it handles events in the order of their
    arrival. *)
Lemma fifo_poll_loop (fuel : nat) : forall scr l,
  steps fifo (poll_loop fuel scr l).
Proof.
  induction fuel as [ | fuel IH ]; intros scr l; cbn [poll_loop].
  - repeat fifo_step.
  - apply (steps_bind fifo fifo_trans); [ apply fifo_NextEvent | ].
    intros [ e | ]; [ | repeat fifo_step ].
    apply (steps_bind fifo fifo_trans); [ apply fifo_poll_case | ].
    intros [l' r]. cbn [fst snd].
    destruct r; [ repeat fifo_step | apply IH ].
Qed.

(** ** Resize, then paint *)

Lemma seg_trans w1 w2 w3 (r1 r2 : list Event) (d1 d2 : list Call) :
  seg w1 w2 r1 d1 -> seg w2 w3 r2 d2 -> seg w1 w3 (r1 ++ r2) (d1 ++ d2).
Proof.
  intros (c1 & E1 & R1 & D1) (c2 & E2 & R2 & D2). exists (c1 ++ c2).
  rewrite received_app, redraws_app, E2, E1, app_assoc, R1, R2, D1, D2.
  repeat split.
Qed.

Lemma received_cons (c : Call) (cs : list Call) :
  received (c :: cs) = received [c] ++ received cs.
Proof. apply (received_app [c] cs). Qed.

Lemma redraws_cons (c : Call) (cs : list Call) :
  redraws (c :: cs) = redraws [c] ++ redraws cs.
Proof. apply (redraws_app [c] cs). Qed.

(** One turn of the loop, on the event at the front of the queue. *)
Lemma poll_loop_turn (n : nat) scr l w (e : Event) (q : list Event) l' w' :
  events w = e :: q ->
  poll_case scr l e (record (NextEvent_ e) (with_events q w))
  = Ok ((l', false), w') ->
  poll_loop (S n) scr l w = poll_loop n scr l' w'.
Proof.
  intros He H. cbn [poll_loop]. unfold bind, NextEvent.
  rewrite He, H. reflexivity.
Qed.

(** A resize at the front of the queue, to a size other than [(0,0)]. *)
Lemma size_turn scr l w (e : size.Event) (q : list Event) :
  events w = size_Event e :: q ->
  size.Size e <> image.ZP ->
  can_alloc scr (image.Mul (size.Size e) 2) ->
  exists l' w',
    (forall n, poll_loop (S n) scr l w = poll_loop n scr l' w')
    /\ dirty l' = true
    /\ size w' = size.Size e
    /\ events w' = q
    /\ seg w w' [size_Event e] [Win_Resize (size.Size e)].
Proof.
  intros He Hz [Hb Ht].
  set (w0 := record (NextEvent_ (size_Event e)) (with_events q w)).
  assert (H : exists l' w' cs,
             poll_case scr l (size_Event e) w0 = Ok ((l', false), w')
             /\ dirty l' = true /\ size w' = size.Size e /\ events w' = q
             /\ calls w' = calls w0 ++ Win_Resize (size.Size e) :: cs
             /\ received cs = [] /\ redraws cs = []).
  { apply Point_eqb_neq in Hz. unfold poll_case. rewrite Hz. run_resize.
    destruct ((image.Dx (screen.Bounds (tex l)) <? image.X (size.Size e))
              || (image.Dy (screen.Bounds (tex l)) <? image.Y (size.Size e))).
    - rewrite Hb. cbn [calls]. rewrite Ht.
      eexists. eexists.
      exists [ Texture_Release (tex l); Buffer_Release (buf l);
               NewBuffer_ (image.Mul (size.Size e) 2);
               NewTexture_ (image.Mul (size.Size e) 2) ].
      split; [ reflexivity | ]. cbn. rewrite <- !app_assoc. repeat split.
    - eexists. eexists. exists [].
      split; [ reflexivity | ]. cbn. repeat split. }
  destruct H as (l' & w' & cs & H & Hd & Hs & Hq & Hc & Hr & Hrd).
  exists l', w'. split; [ | repeat split; try assumption ].
  - intros n. apply (poll_loop_turn n scr l w (size_Event e) q); assumption.
  - exists (NextEvent_ (size_Event e) :: Win_Resize (size.Size e) :: cs).
    rewrite Hc. unfold w0.
    split; [ cbn; rewrite <- app_assoc; reflexivity | split ].
    + change (size_Event e :: received cs = [size_Event e]).
      rewrite Hr. reflexivity.
    + change (Win_Resize (size.Size e) :: redraws cs
              = [Win_Resize (size.Size e)]).
      rewrite Hrd. reflexivity.
Qed.

(** A paint request at the front of the queue. *)
Lemma paint_turn scr l w (p : paint.Event) (q : list Event) :
  events w = paint_Event p :: q ->
  exists l' w',
    (forall n, poll_loop (S n) scr l w = poll_loop n scr l' w')
    /\ dirty l' = false
    /\ buf l' = buf l
    /\ size w' = size w
    /\ events w' = q
    /\ seg w w' [paint_Event p]
         [Win_Draw (dirty l)
            (image.SubImage (screen.RGBA (buf l))
               (image.Rect image.ZP (size w)))].
Proof.
  intros He.
  set (w0 := record (NextEvent_ (paint_Event p)) (with_events q w)).
  assert (H : exists w',
             poll_case scr l (paint_Event p) w0
             = Ok ((mkframe (mods l) false (buf l) (tex l), false), w')
             /\ size w' = size w /\ events w' = q
             /\ calls w' = calls w0 ++
                  [ Win_Draw (dirty l)
                      (image.SubImage (screen.RGBA (buf l))
                         (image.Rect image.ZP (size w)));
                    Texture_Upload (tex l) (buf l); Window_Draw (tex l);
                    Window_Publish ]).
  { unfold poll_case, get_size, win_Draw, on_win, log, bind, ret.
    eexists. split; [ reflexivity | ].
    cbn. rewrite <- !app_assoc. repeat split. }
  destruct H as (w' & H & Hs & Hq & Hc).
  exists (mkframe (mods l) false (buf l) (tex l)), w'.
  split; [ | repeat split; try assumption ].
  - intros n. apply (poll_loop_turn n scr l w (paint_Event p) q); assumption.
  - exists (NextEvent_ (paint_Event p)
            :: [ Win_Draw (dirty l)
                   (image.SubImage (screen.RGBA (buf l))
                      (image.Rect image.ZP (size w)));
                 Texture_Upload (tex l) (buf l); Window_Draw (tex l);
                 Window_Publish ]).
    rewrite Hc. unfold w0. cbn. rewrite <- app_assoc. repeat split.
Qed.

(** A stretch of quiet events at the front of the queue. *)
Lemma quiet_turns scr : forall (mid : list Event) l w (rest : list Event),
  forallb quiet mid = true ->
  events w = mid ++ rest ->
  exists l' w' extra,
    (forall n, poll_loop (List.length mid + n) scr l w = poll_loop n scr l' w')
    /\ dirty l' = dirty l
    /\ buf l' = buf l
    /\ size w' = size w
    /\ events w' = rest ++ extra
    /\ seg w w' mid [].
Proof.
  induction mid as [ | e mid IH ]; intros l w rest Hq He.
  - exists l, w, []. rewrite app_nil_r. repeat split; try assumption.
    exists []. rewrite app_nil_r. repeat split.
  - cbn in Hq. apply andb_true_iff in Hq. destruct Hq as [Hq1 Hq2].
    set (w0 := record (NextEvent_ e) (with_events (mid ++ rest) w)).
    destruct (quiet_case scr l e w0 Hq1)
      as (l1 & w1 & cs1 & H1 & Hd1 & Hb1 & _ & Hs1 & Hc1 & Hrd1 & Hr1 & He1).
    destruct (IH l1 w1 (rest ++ sent cs1) Hq2)
      as (l' & w' & extra & Hn & Hd & Hb & Hs & Hev & Hseg).
    { rewrite He1. unfold w0. cbn. rewrite app_assoc. reflexivity. }
    exists l', w', (sent cs1 ++ extra).
    split; [ | split; [ congruence | split; [ congruence | split; [ | split ] ] ] ].
    + intros n. cbn [List.length Nat.add].
      rewrite (poll_loop_turn _ scr l w e (mid ++ rest) l1 w1 He H1).
      apply Hn.
    + rewrite Hs, Hs1. reflexivity.
    + rewrite Hev, app_assoc. reflexivity.
    + apply (seg_trans w w1 w' [e] mid [] []); [ | exact Hseg ].
      exists (NextEvent_ e :: cs1). rewrite Hc1. unfold w0.
      split; [ cbn; rewrite <- app_assoc; reflexivity | split ].
      * change (e :: received cs1 = [e]). rewrite Hr1. reflexivity.
      * change (redraws cs1 = []). exact Hrd1.
Qed.

(** C8: the loop is serial and handles events in the order of their
    arrival, however long it runs.  When a resize (to a size other than
    (0,0)) is followed, after any stretch of other events, by a paint
    request, the tree has been resized before it is drawn, and that
    first draw is a full one ([Draw] with dirty = true); the loop then
    clears the flag, so that the next paint request, with no resize in
    between, draws with dirty = false.  Both draws are handed the part
    of the buffer that lies inside the window, the buffer being the one
    the loop holds from the resize on. *)
Theorem resize_then_full_redraw scr l w (e : size.Event)
  (p1 p2 : paint.Event) (mid later rest : list Event) :
  (forall fuel l1 w1 r w2,
      poll_loop fuel scr l1 w1 = Ok (r, w2) -> fifo w1 w2)
  /\ (size.Size e <> image.ZP ->
      can_alloc scr (image.Mul (size.Size e) 2) ->
      forallb quiet mid = true ->
      forallb quiet later = true ->
      events w = size_Event e :: mid ++ paint_Event p1
                   :: later ++ paint_Event p2 :: rest ->
      exists l' w' cs,
        poll_loop (S (List.length mid + S (List.length later + 1))) scr l w
        = Ok ((Running, l'), w')
        /\ calls w' = calls w ++ cs
        /\ received cs = size_Event e :: mid ++ paint_Event p1
                           :: later ++ [paint_Event p2]
        /\ redraws cs =
             [ Win_Resize (size.Size e);
               Win_Draw true
                 (image.SubImage (screen.RGBA (buf l'))
                    (image.Rect image.ZP (size.Size e)));
               Win_Draw false
                 (image.SubImage (screen.RGBA (buf l'))
                    (image.Rect image.ZP (size.Size e))) ]
        /\ dirty l' = false).
Proof.
  split.
  { intros fuel l1 w1 r w2 H. exact (fifo_poll_loop fuel scr l1 w1 r w2 H). }
  intros Hz Ha Hm Hl He.
  destruct (size_turn scr l w e _ He Hz Ha)
    as (l1 & w1 & T1 & D1 & S1 & E1 & G1).
  destruct (quiet_turns scr mid l1 w1 _ Hm E1)
    as (l2 & w2 & x2 & T2 & D2 & B2 & S2 & E2 & G2).
  destruct (paint_turn scr l2 w2 p1 ((later ++ paint_Event p2 :: rest) ++ x2))
    as (l3 & w3 & T3 & D3 & B3 & S3 & E3 & G3); [ exact E2 | ].
  rewrite <- app_assoc in E3.
  destruct (quiet_turns scr later l3 w3 _ Hl E3)
    as (l4 & w4 & x4 & T4 & D4 & B4' & S4 & E4 & G4).
  destruct (paint_turn scr l4 w4 p2 ((rest ++ x2) ++ x4))
    as (l5 & w5 & T5 & D5 & B5 & S5 & E5 & G5); [ exact E4 | ].
  pose proof (seg_trans _ _ _ _ _ _ _ G1
               (seg_trans _ _ _ _ _ _ _ G2
                 (seg_trans _ _ _ _ _ _ _ G3
                   (seg_trans _ _ _ _ _ _ _ G4 G5)))) as (cs & Hc & Hr & Hd).
  exists l5, w5, cs.
  split; [ | split; [ exact Hc | split; [ | split; [ | exact D5 ] ] ] ].
  - rewrite T1, T2, T3, T4. replace 1%nat with (S 0) by reflexivity.
    rewrite T5. reflexivity.
  - rewrite Hr. reflexivity.
  - assert (Hb4 : buf l4 = buf l5) by (symmetry; exact B5).
    assert (Hb2 : buf l2 = buf l5) by congruence.
    rewrite Hd, D2, D1, D4, D3, S2, S1, S4, S3, S2, S1, Hb2, Hb4.
    reflexivity.
Qed.

(** * Further properties of the loop *)

(** ** Panics *)

Lemma dirKey_off_map (e : key.Event) w :
  lookup dirKeyCode (key.Code e) = false ->
  dirKey e w = Panic "impossible".
Proof.
  unfold dirKeyCode, lookup, dirKey.
  repeat zcase; intros H; try discriminate H; reflexivity.
Qed.

(** X1: [dirKey] panics exactly on the codes that are not keys of
    [dirKeyCode]; [keyEvent] consults the map before it calls [dirKey],
    and so never panics, whatever the event. *)
Theorem impossible_is_unreachable mods (e : key.Event) w :
  (dirKey e w = Panic "impossible"
   <-> lookup dirKeyCode (key.Code e) = false)
  /\ (exists mods' cs, yields (keyEvent mods e) w mods' cs).
Proof.
  split; [ split | apply keyEvent_total ].
  - intros H. destruct (lookup dirKeyCode (key.Code e)) eqn:Hl; [ | reflexivity ].
    destruct (dirKey_spec e w Hl) as (x & y & (w' & Hy & _) & _).
    rewrite Hy in H. discriminate H.
  - apply dirKey_off_map.
Qed.

(** X2: the one way the loop can panic: a resize to a size other than
    [(0,0)] that the texture is too small for, when the host fails to
    allocate the buffer or the texture of twice that size.  Every other
    event is handled without panic. *)
Theorem poll_case_panics_only_on_failed_growth scr l (e : Event) w :
  (exists msg, poll_case scr l e w = Panic msg)
  <-> (exists se, e = size_Event se
         /\ size.Size se <> image.ZP
         /\ too_small (tex l) (size.Size se) = true
         /\ ~ can_alloc scr (image.Mul (size.Size se) 2)).
Proof.
  split.
  - intros [msg H].
    assert (Hq : forall ev, quiet ev = true -> poll_case scr l ev w <> Panic msg).
    { intros ev Hev Hp.
      destruct (quiet_case scr l ev w Hev) as (l' & w' & cs & Hq & _).
      rewrite Hq in Hp. discriminate Hp. }
    destruct e as [ | t | le | se | p | me | ke | ];
      try (exfalso; eapply Hq; [ | exact H ]; reflexivity); clear Hq.
    + destruct (done_releases scr l w) as (w' & Hq & _).
      rewrite Hq in H. discriminate H.
    + exists se. split; [ reflexivity | ].
      unfold poll_case in H. fold (too_small (tex l)) in H.
      destruct (image.Point_eqb (size.Size se) image.ZP) eqn:Hz;
        [ discriminate H | ].
      split; [ apply Point_eqb_neq; exact Hz | ].
      revert H. run_resize.
      change ((image.Dx (screen.Bounds (tex l)) <? image.X (size.Size se))
              || (image.Dy (screen.Bounds (tex l)) <? image.Y (size.Size se)))
        with (too_small (tex l) (size.Size se)).
      destruct (too_small (tex l) (size.Size se)); [ | discriminate ].
      intros H. split; [ reflexivity | ]. intros [Hb Ht].
      rewrite Hb in H. cbn [calls] in H. rewrite Ht in H. discriminate H.
    + unfold poll_case, get_size, win_Draw, on_win, log, bind, ret in H.
      discriminate H.
  - intros (se & -> & Hz & Hs & Ha).
    apply Point_eqb_neq in Hz. unfold poll_case. rewrite Hz. run_resize.
    change ((image.Dx (screen.Bounds (tex l)) <? image.X (size.Size se))
            || (image.Dy (screen.Bounds (tex l)) <? image.Y (size.Size se)))
      with (too_small (tex l) (size.Size se)).
    rewrite Hs. unfold can_alloc in Ha.
    destruct (screen.NewBuffer_ok scr (image.Mul (size.Size se) 2));
      [ | eexists; reflexivity ].
    cbn [calls].
    destruct (screen.NewTexture_ok scr (image.Mul (size.Size se) 2));
      [ exfalso; apply Ha; split; reflexivity | eexists; reflexivity ].
Qed.

(** ** The modifier state *)

Lemma bool4_ext (a b : bool4) :
  (forall k, 0 <= k < 4 -> idx a k = idx b k) -> a = b.
Proof.
  intros H. destruct a as [a0 a1 a2 a3], b as [c0 c1 c2 c3].
  pose proof (H 0 ltac:(lia)) as H0. pose proof (H 1 ltac:(lia)) as H1.
  pose proof (H 2 ltac:(lia)) as H2. pose proof (H 3 ltac:(lia)) as H3.
  cbn in H0, H1, H2, H3. congruence.
Qed.

(** What [keyEvent] does to the modifier state, in full. *)
Lemma keyEvent_mods mods (e : key.Event) w mods' cs :
  b0 mods = false ->
  yields (keyEvent mods e) w mods' cs ->
  ((press_like e /\ lookup dirKeyCode (key.Code e) = true) \/ 0 < typed e ->
   mods' = mods /\ modcalls cs = [])
  /\ (~ (press_like e /\ lookup dirKeyCode (key.Code e) = true) ->
      typed e <= 0 ->
      mods' = reported e
      /\ (modcalls cs = [] /\ mods = reported e
          \/ exists j, 1 <= j <= 3
               /\ (forall k, 0 <= k < j -> idx (reported e) k = idx mods k)
               /\ idx (reported e) j <> idx mods j
               /\ modcalls cs = [if idx (reported e) j then j else - j])).
Proof.
  intros Hb Hy. split.
  - intros Hc.
    destruct (press_like_dec e) as [Hp | Hp];
      [ destruct (lookup dirKeyCode (key.Code e)) eqn:Hl | ].
    + destruct (keyEvent_dir mods e w Hp Hl) as (x & y & Hd & _).
      destruct (yields_det _ _ _ _ _ _ Hy Hd) as [-> ->]. split; reflexivity.
    + destruct Hc as [ [_ Hc] | Hc ]; [ discriminate Hc | ].
      destruct (keyEvent_other mods e w) as (H1 & _ & _);
        [ intros [_ H]; congruence | ].
      destruct (yields_det _ _ _ _ _ _ Hy (H1 Hc Hp)) as [-> ->].
      split; reflexivity.
    + destruct Hc as [ [Hc _] | Hc ]; [ tauto | ].
      destruct (keyEvent_other mods e w) as (_ & H2 & _); [ tauto | ].
      destruct (yields_det _ _ _ _ _ _ Hy (H2 Hc Hp)) as [-> ->].
      split; reflexivity.
  - intros Hnd Ht.
    destruct (keyEvent_other mods e w Hnd) as (_ & _ & H3).
    destruct (modKey_spec mods e w) as [ [Hm Hk] | (j & Hj & Hk & Hd & Hm) ];
      apply (H3 Ht) in Hm;
      destruct (yields_det _ _ _ _ _ _ Hy Hm) as [-> ->].
    + assert (E : mods = reported e)
        by (apply bool4_ext; intros k Hk'; symmetry; apply Hk; exact Hk').
      split; [ exact E | left; split; [ reflexivity | exact E ] ].
    + split; [ reflexivity | right ]. exists j.
      assert (j <> 0).
      { intros ->. apply Hd. cbn. rewrite Hb. reflexivity. }
      split; [ lia | ]. split; [ exact Hk | ]. split; [ exact Hd | reflexivity ].
Qed.

(** Flag 0 stays clear. *)
Lemma mod_step_b0 mods (e : key.Event) w mods' cs :
  b0 mods = false ->
  yields (keyEvent mods e) w mods' cs ->
  b0 mods' = false.
Proof.
  intros Hb Hy.
  destruct (keyEvent_mods mods e w mods' cs Hb Hy) as [H1 H2].
  destruct (press_like_dec e) as [Hp | Hp];
    [ destruct (lookup dirKeyCode (key.Code e)) eqn:Hl | ].
  1: destruct H1 as [-> _]; [ left; split; [ exact Hp | reflexivity ] | exact Hb ].
  all: destruct (Z.lt_ge_cases 0 (typed e)) as [Ht | Ht].
  all: try (destruct H1 as [-> _]; [ right; exact Ht | exact Hb ]).
  all: destruct H2 as [-> _]; [ try tauto; intros [_ H]; congruence | lia | ].
  all: reflexivity.
Qed.

(** X3: the flag at index 0 is never set and [Mod] is never called with 0:
    from a state whose flag 0 is clear, a key event leaves flag 0 clear,
    makes at most one [Mod] call, and that call is [Mod(j)] for a flag
    [j] in 1..3 that was clear and is now set, or [Mod(-j)] for one that
    was set and is now clear. *)
Theorem mod_calls_are_edges mods (e : key.Event) w mods' cs :
  b0 mods = false ->
  yields (keyEvent mods e) w mods' cs ->
  b0 mods' = false
  /\ (List.length (modcalls cs) <= 1)%nat
  /\ (forall m, In m (modcalls cs) ->
        (1 <= m <= 3 /\ idx mods m = false /\ idx mods' m = true)
        \/ (-3 <= m <= -1 /\ idx mods (- m) = true /\ idx mods' (- m) = false)).
Proof.
  intros Hb Hy.
  destruct (keyEvent_mods mods e w mods' cs Hb Hy) as [H1 H2].
  destruct (press_like_dec e) as [Hp | Hp];
    [ destruct (lookup dirKeyCode (key.Code e)) eqn:Hl | ].
  1: destruct H1 as [-> ->]; [ left; split; [ exact Hp | reflexivity ] | ];
     split; [ exact Hb | split; [ cbn; lia | intros m [] ] ].
  all: destruct (Z.lt_ge_cases 0 (typed e)) as [Ht | Ht].
  all: try (destruct H1 as [-> ->]; [ right; exact Ht | ];
            split; [ exact Hb | split; [ cbn; lia | intros m [] ] ]).
  all: destruct H2 as [-> H2]; [ try tauto; intros [_ H]; congruence | lia | ].
  all: split; [ reflexivity | ].
  all: destruct H2 as [ [-> _] | (j & Hj & _ & Hd & ->) ];
    [ split; [ cbn; lia | intros m [] ] | ].
  all: split; [ cbn; lia | ].
  all: intros m [<- | [] ].
  all: destruct (idx (reported e) j) eqn:Ej;
    [ left; split; [ lia | split; [ | exact Ej ] ]
    | right; rewrite Z.opp_involutive;
      split; [ lia | split; [ | exact Ej ] ] ].
  all: destruct (idx mods j); congruence.
Qed.

(** X4: only a key event that is neither a press of a directional key nor
    carries a rune can touch the modifier state: a directional press, or
    an event whose rune is positive after the rewriting of Backspace,
    forward-delete and return, leaves the state alone and makes no [Mod]
    call, whatever modifiers it reports; any other key event leaves the
    state equal to the modifiers it reports. *)
Theorem modifier_state_follows_report mods (e : key.Event) w mods' cs :
  b0 mods = false ->
  yields (keyEvent mods e) w mods' cs ->
  ((press_like e /\ lookup dirKeyCode (key.Code e) = true) \/ 0 < typed e ->
   mods' = mods /\ modcalls cs = [])
  /\ (~ (press_like e /\ lookup dirKeyCode (key.Code e) = true) ->
      typed e <= 0 -> mods' = reported e).
Proof.
  intros Hb Hy.
  destruct (keyEvent_mods mods e w mods' cs Hb Hy) as [H1 H2].
  split; [ exact H1 | ].
  intros Hnd Ht. apply (H2 Hnd Ht).
Qed.

(** X5: handling the same key event a second time makes no [Mod] call and
    leaves the modifier state as the first handling left it: a key that
    repeats does not repeat its modifier notification. *)
Theorem repeated_key_event_is_silent mods (e : key.Event) w mods1 cs1 w1 :
  b0 mods = false ->
  keyEvent mods e w = Ok (mods1, w1) ->
  calls w1 = calls w ++ cs1 ->
  exists cs2, yields (keyEvent mods1 e) w1 mods1 cs2 /\ modcalls cs2 = [].
Proof.
  intros Hb H Hc.
  assert (Hy : yields (keyEvent mods e) w mods1 cs1)
    by (exists w1; split; assumption).
  destruct (keyEvent_mods mods e w mods1 cs1 Hb Hy) as [H1 H2].
  destruct (keyEvent_total mods1 e w1) as (mods2 & cs2 & Hy2).
  assert (Hb1 : b0 mods1 = false).
  { destruct (mod_step_b0 mods e w mods1 cs1 Hb Hy). reflexivity. }
  destruct (keyEvent_mods mods1 e w1 mods2 cs2 Hb1 Hy2) as [K1 K2].
  destruct (press_like_dec e) as [Hp | Hp];
    [ destruct (lookup dirKeyCode (key.Code e)) eqn:Hl | ].
  1: destruct K1 as [-> K]; [ left; split; [ exact Hp | reflexivity ] | ];
     exists cs2; split; assumption.
  all: destruct (Z.lt_ge_cases 0 (typed e)) as [Ht | Ht].
  all: try (destruct K1 as [-> K]; [ right; exact Ht | ];
            exists cs2; split; assumption).
  all: destruct H2 as [E1 _]; [ try tauto; intros [_ H']; congruence | lia | ].
  all: destruct K2 as [E2 K]; [ try tauto; intros [_ H']; congruence | lia | ].
  all: exists cs2; rewrite E2 in Hy2; rewrite E1 in *; split; [ exact Hy2 | ].
  all: destruct K as [ [K _] | (j & _ & _ & Hd & _) ];
    [ exact K | exfalso; apply Hd; reflexivity ].
Qed.

(** ** Pointer events *)

(** X6: for a button that is not a wheel button, a press followed by a
    release at the same point is to the window exactly what one "step"
    event at that point is. *)
Theorem press_then_release_is_step (x y : Q) (b m : Z) w :
  wheel_button b = false ->
  bind (mouseEvent (mouse.mkEvent x y b m mouse.DirPress))
       (fun _ => mouseEvent (mouse.mkEvent x y b m mouse.DirRelease)) w
  = mouseEvent (mouse.mkEvent x y b m mouse.DirStep) w.
Proof.
  intros Hw. apply wheel_button_false in Hw.
  destruct Hw as (H1 & H2 & H3 & H4).
  unfold mouseEvent, bind.
  cbn [mouse.Button mouse.Direction mouse.X mouse.Y].
  rewrite (proj2 (Z.eqb_neq _ _) H1), (proj2 (Z.eqb_neq _ _) H2),
    (proj2 (Z.eqb_neq _ _) H3), (proj2 (Z.eqb_neq _ _) H4).
  reflexivity.
Qed.

(** ** [newWindow] *)

Lemma await_size_skips (pre post : list Event) (e : size.Event) :
  forallb (fun ev => negb (is_size ev)) pre = true ->
  await_size (pre ++ size_Event e :: post) = Some (e, post)
  /\ await_size pre = None.
Proof.
  induction pre as [ | ev pre IH ]; intros H; [ split; reflexivity | ].
  cbn in H. apply andb_true_iff in H. destruct H as [Hev Hpre].
  destruct (IH Hpre) as [IH1 IH2].
  destruct ev; try discriminate Hev; cbn; split; assumption.
Qed.

(** X9: [newWindow] waits for the first [size.Event]: the events queued
    before it are taken off the queue and dropped without being handled,
    whatever they are; the window starts with that size, the events
    queued after it, a live context, and a tree that has been resized
    once, even when the size is [(0,0)].  Without a [size.Event],
    [newWindow] never returns. *)
Theorem newWindow_drops_until_size scr (pre post : list Event)
  (e : size.Event) :
  screen.NewWindow_ok scr = true ->
  forallb (fun ev => negb (is_size ev)) pre = true ->
  (exists w, newWindow scr (pre ++ size_Event e :: post) = Ok (Some w)
             /\ size w = size.Size e
             /\ events w = post
             /\ ctx_Done w = false
             /\ calls w = [Win_Resize (size.Size e)])
  /\ newWindow (Win:=Win) scr pre = Ok None.
Proof.
  intros Hok Hpre.
  destruct (await_size_skips pre post e Hpre) as [H1 H2].
  unfold newWindow. rewrite Hok, H1, H2. cbn [negb].
  split; [ | reflexivity ].
  eexists. split; [ reflexivity | ]. cbn. repeat split.
Qed.

(** ** The dirty flag, over any run *)

Lemma flag_run_app (a b : list Call) : forall flag,
  flag_run flag (a ++ b)
  = match flag_run flag a with
    | Some flag' => flag_run flag' b
    | None => None
    end.
Proof.
  induction a as [ | c a IH ]; intros flag; [ reflexivity | ].
  destruct c; cbn [app flag_run]; try apply IH.
  match goal with
  | |- context [Bool.eqb ?d flag] => destruct (Bool.eqb d flag)
  end; [ apply IH | reflexivity ].
Qed.

Lemma flag_run_quiet (cs : list Call) : forall flag,
  redraws cs = [] -> flag_run flag cs = Some flag.
Proof.
  induction cs as [ | c cs IH ]; intros flag H; [ reflexivity | ].
  destruct c; cbn in H; try discriminate H; cbn [flag_run]; apply IH; exact H.
Qed.

(** One event: the [Resize] and [Draw] calls agree with the flag. *)
Lemma flag_case scr l (e : Event) w l' r w' :
  poll_case scr l e w = Ok ((l', r), w') ->
  exists cs, calls w' = calls w ++ cs
             /\ flag_run (dirty l) cs = Some (dirty l').
Proof.
  intros H.
  assert (Hq : quiet e = true ->
               exists cs, calls w' = calls w ++ cs
                          /\ flag_run (dirty l) cs = Some (dirty l')).
  { intros Hq.
    destruct (quiet_case scr l e w Hq)
      as (l1 & w1 & cs & H1 & Hd & _ & _ & _ & Hc & Hr & _).
    rewrite H1 in H. inversion H; subst.
    exists cs. split; [ exact Hc | ].
    rewrite Hd. apply flag_run_quiet. exact Hr. }
  destruct e as [ | t | le | se | p | me | ke | ];
    try (apply Hq; reflexivity); clear Hq.
  - destruct (done_releases scr l w) as (w1 & H1 & _ & _ & Hc).
    rewrite H1 in H. inversion H; subst.
    eexists. split; [ exact Hc | reflexivity ].
  - revert H. unfold poll_case.
    destruct (image.Point_eqb (size.Size se) image.ZP).
    + unfold cancel, bind, ret. intros H. inversion H; subst.
      exists [cancel_]. split; reflexivity.
    + run_resize.
      destruct ((image.Dx (screen.Bounds (tex l)) <? image.X (size.Size se))
                || (image.Dy (screen.Bounds (tex l)) <? image.Y (size.Size se))).
      * destruct (screen.NewBuffer_ok scr (image.Mul (size.Size se) 2));
          [ | discriminate ].
        cbn [calls].
        destruct (screen.NewTexture_ok scr (image.Mul (size.Size se) 2));
          [ | discriminate ].
        intros H. inversion H; subst.
        exists [ Win_Resize (size.Size se);
                 Texture_Release (tex l); Buffer_Release (buf l);
                 NewBuffer_ (image.Mul (size.Size se) 2);
                 NewTexture_ (image.Mul (size.Size se) 2) ].
        split; [ cbn; rewrite <- !app_assoc; reflexivity | reflexivity ].
      * intros H. inversion H; subst.
        exists [Win_Resize (size.Size se)]. split; reflexivity.
  - revert H. unfold poll_case, get_size, win_Draw, on_win, log, bind, ret.
    intros H. inversion H; subst.
    exists [ Win_Draw (dirty l)
                 (image.SubImage (screen.RGBA (buf l))
                    (image.Rect image.ZP (size w)));
             Texture_Upload (tex l) (buf l); Window_Draw (tex l);
             Window_Publish ].
    split; [ cbn; rewrite <- !app_assoc; reflexivity | ].
    cbn. rewrite eqb_reflx. reflexivity.
Qed.

Lemma flag_loop (fuel : nat) : forall scr l w st l' w',
  poll_loop fuel scr l w = Ok ((st, l'), w') ->
  exists cs, calls w' = calls w ++ cs
             /\ flag_run (dirty l) cs = Some (dirty l').
Proof.
  induction fuel as [ | fuel IH ]; intros scr l w st l' w' H.
  - inversion H; subst. exists []. rewrite app_nil_r. split; reflexivity.
  - cbn [poll_loop] in H. unfold bind, NextEvent in H.
    destruct (events w) as [ | e q ] eqn:Eq.
    + inversion H; subst. exists []. rewrite app_nil_r. split; reflexivity.
    + destruct (poll_case scr l e (record (NextEvent_ e) (with_events q w)))
        as [ [ [l1 r] w1 ] | msg ] eqn:Hc; [ | discriminate H ].
      destruct (flag_case _ _ _ _ _ _ _ Hc) as (cs1 & E1 & F1).
      cbn [fst snd] in H. destruct r.
      * inversion H; subst.
        exists (NextEvent_ e :: cs1). split.
        -- rewrite E1. cbn. rewrite <- app_assoc. reflexivity.
        -- exact F1.
      * destruct (IH _ _ _ _ _ _ H) as (cs2 & E2 & F2).
        exists (NextEvent_ e :: cs1 ++ cs2). split.
        -- rewrite E2, E1. cbn. rewrite <- !app_assoc. reflexivity.
        -- change (flag_run (dirty l) (cs1 ++ cs2) = Some (dirty l')).
           rewrite flag_run_app, F1. exact F2.
Qed.

(** X10: over any run of [poll], however long and whatever the events: the
    first [Draw] after the start, and after each [Resize] of the tree, is
    a full one (dirty = true), and every other [Draw] is a partial one
    (dirty = false); the flag [poll] is left with is the one this reading
    of the calls ends on. *)
Theorem draws_follow_the_dirty_flag (fuel : nat) scr w st l' w' :
  poll fuel scr w = Ok ((st, l'), w') ->
  exists cs, calls w' = calls w ++ cs
             /\ flag_run true cs = Some (dirty l').
Proof.
  unfold poll, bind. intros H.
  destruct (poll_init scr w) as [ [l0' w0'] | msg ] eqn:Hi; [ | discriminate H ].
  destruct (poll_init_locals scr w l0' w0' Hi) as [_ Hd].
  destruct (flag_loop fuel scr l0' w0' st l' w' H) as (cs & E & F).
  assert (Hc : exists c0, calls w0' = calls w ++ c0 /\ redraws c0 = []).
  { revert Hi. unfold poll_init, bufTex, NewBuffer, NewTexture, get_size.
    run.
    destruct (screen.NewBuffer_ok scr (size w)); [ | discriminate ].
    destruct (screen.NewTexture_ok scr (size w)); [ | discriminate ].
    intros Hi. inversion Hi; subst.
    exists [NewBuffer_ (size w); NewTexture_ (size w)].
    split; [ cbn; rewrite <- app_assoc; reflexivity | reflexivity ]. }
  destruct Hc as (c0 & E0 & R0).
  exists (c0 ++ cs). split.
  - rewrite E, E0, app_assoc. reflexivity.
  - rewrite flag_run_app, (flag_run_quiet c0 true R0). rewrite <- Hd. exact F.
Qed.

(** ** Buffers and textures are neither leaked nor released twice *)

Lemma live_bufs_app (a b : list Call) :
  live_bufs (a ++ b) = live_bufs a + live_bufs b.
Proof.
  induction a as [ | c a IH ]; [ reflexivity | ].
  destruct c; cbn [app live_bufs]; lia.
Qed.

Lemma live_texs_app (a b : list Call) :
  live_texs (a ++ b) = live_texs a + live_texs b.
Proof.
  induction a as [ | c a IH ]; [ reflexivity | ].
  destruct c; cbn [app live_texs]; lia.
Qed.

Lemma no_alloc_live (cs : list Call) :
  Forall no_alloc cs -> live_bufs cs = 0 /\ live_texs cs = 0.
Proof.
  induction 1 as [ | c cs Hc _ IH ]; [ split; reflexivity | ].
  destruct c; cbn in Hc; try contradiction; exact IH.
Qed.

Lemma emits_quiet_no_alloc scr l (e : Event) :
  quiet e = true -> emits no_alloc (poll_case scr l e).
Proof.
  destruct e; intros Hq; try discriminate Hq; cbn [poll_case];
    unfold win_Focus.
  - emit_walk no_alloc; exact I.
  - emit_walk no_alloc; exact I.
  - emit_walk no_alloc. apply emits_mouseEvent; intros; exact I.
  - emit_walk no_alloc. apply emits_keyEvent; intros; exact I.
  - emit_walk no_alloc.
Qed.

(** One event: allocations and releases balance, except on [done], where
    the one buffer and the one texture are released. *)
Lemma balance_case scr l (e : Event) w l' r w' :
  poll_case scr l e w = Ok ((l', r), w') ->
  exists cs, calls w' = calls w ++ cs
             /\ live_bufs cs = (if r then -1 else 0)
             /\ live_texs cs = (if r then -1 else 0).
Proof.
  intros H.
  assert (Hq : quiet e = true ->
               exists cs, calls w' = calls w ++ cs
                          /\ live_bufs cs = (if r then -1 else 0)
                          /\ live_texs cs = (if r then -1 else 0)).
  { intros Hq.
    destruct (quiet_case scr l e w Hq) as (l1 & w1 & cs1 & H1 & _).
    assert (r = false) by (rewrite H1 in H; inversion H; reflexivity).
    subst r.
    destruct (emits_quiet_no_alloc scr l e Hq w _ w' H) as (cs & Hc & Hf).
    exists cs. split; [ exact Hc | apply no_alloc_live; exact Hf ]. }
  destruct e as [ | t | le | se | p | me | ke | ];
    try (apply Hq; reflexivity); clear Hq.
  - destruct (done_releases scr l w) as (w1 & H1 & _ & _ & Hc).
    rewrite H1 in H. inversion H; subst.
    eexists. split; [ exact Hc | split; reflexivity ].
  - revert H. unfold poll_case.
    destruct (image.Point_eqb (size.Size se) image.ZP).
    + unfold cancel, bind, ret. intros H. inversion H; subst.
      exists [cancel_]. repeat split.
    + run_resize.
      destruct ((image.Dx (screen.Bounds (tex l)) <? image.X (size.Size se))
                || (image.Dy (screen.Bounds (tex l)) <? image.Y (size.Size se))).
      * destruct (screen.NewBuffer_ok scr (image.Mul (size.Size se) 2));
          [ | discriminate ].
        cbn [calls].
        destruct (screen.NewTexture_ok scr (image.Mul (size.Size se) 2));
          [ | discriminate ].
        intros H. inversion H; subst.
        exists [ Win_Resize (size.Size se);
                 Texture_Release (tex l); Buffer_Release (buf l);
                 NewBuffer_ (image.Mul (size.Size se) 2);
                 NewTexture_ (image.Mul (size.Size se) 2) ].
        split; [ cbn; rewrite <- !app_assoc; reflexivity | split; reflexivity ].
      * intros H. inversion H; subst.
        exists [Win_Resize (size.Size se)]. repeat split.
  - revert H. unfold poll_case, get_size, win_Draw, on_win, log, bind, ret.
    intros H. inversion H; subst.
    exists [ Win_Draw (dirty l)
                 (image.SubImage (screen.RGBA (buf l))
                    (image.Rect image.ZP (size w)));
             Texture_Upload (tex l) (buf l); Window_Draw (tex l);
             Window_Publish ].
    split; [ cbn; rewrite <- !app_assoc; reflexivity | split; reflexivity ].
Qed.

Lemma balance_loop (fuel : nat) : forall scr l w st l' w',
  poll_loop fuel scr l w = Ok ((st, l'), w') ->
  exists cs, calls w' = calls w ++ cs
             /\ live_bufs cs = (match st with Returned => -1 | _ => 0 end)
             /\ live_texs cs = (match st with Returned => -1 | _ => 0 end).
Proof.
  induction fuel as [ | fuel IH ]; intros scr l w st l' w' H.
  - inversion H; subst. exists []. rewrite app_nil_r. repeat split.
  - cbn [poll_loop] in H. unfold bind, NextEvent in H.
    destruct (events w) as [ | e q ] eqn:Eq.
    + inversion H; subst. exists []. rewrite app_nil_r. repeat split.
    + destruct (poll_case scr l e (record (NextEvent_ e) (with_events q w)))
        as [ [ [l1 r] w1 ] | msg ] eqn:Hc; [ | discriminate H ].
      destruct (balance_case _ _ _ _ _ _ _ Hc) as (cs1 & E1 & B1 & T1).
      cbn [fst snd] in H. destruct r.
      * inversion H; subst.
        exists (NextEvent_ e :: cs1). split.
        -- rewrite E1. cbn. rewrite <- app_assoc. reflexivity.
        -- split; assumption.
      * destruct (IH _ _ _ _ _ _ H) as (cs2 & E2 & B2 & T2).
        exists (NextEvent_ e :: cs1 ++ cs2). split.
        -- rewrite E2, E1. cbn. rewrite <- !app_assoc. reflexivity.
        -- change (live_bufs (cs1 ++ cs2) = match st with Returned => -1 | _ => 0 end
                   /\ live_texs (cs1 ++ cs2) = match st with Returned => -1 | _ => 0 end).
           rewrite live_bufs_app, live_texs_app, B1, T1, B2, T2.
           split; reflexivity.
Qed.

(** X11: over any run of [poll] that does not panic: as long as [poll] has
    not returned, it has allocated exactly one buffer and one texture
    more than it has released; once it has returned, after [done], it
    has released as many buffers, and as many textures, as it has
    allocated. *)
Theorem buffers_and_textures_balance (fuel : nat) scr w st l' w' :
  poll fuel scr w = Ok ((st, l'), w') ->
  exists cs, calls w' = calls w ++ cs
             /\ live_bufs cs = (match st with Returned => 0 | _ => 1 end)
             /\ live_texs cs = (match st with Returned => 0 | _ => 1 end).
Proof.
  unfold poll, bind. intros H.
  destruct (poll_init scr w) as [ [l0' w0'] | msg ] eqn:Hi; [ | discriminate H ].
  destruct (balance_loop fuel scr l0' w0' st l' w' H) as (cs & E & B & T).
  assert (Hc : calls w0' = calls w ++ [NewBuffer_ (size w); NewTexture_ (size w)]).
  { revert Hi. unfold poll_init, bufTex, NewBuffer, NewTexture, get_size.
    run.
    destruct (screen.NewBuffer_ok scr (size w)); [ | discriminate ].
    destruct (screen.NewTexture_ok scr (size w)); [ | discriminate ].
    intros Hi. inversion Hi; subst.
    cbn. rewrite <- app_assoc. reflexivity. }
  exists ([NewBuffer_ (size w); NewTexture_ (size w)] ++ cs). split.
  - rewrite E, Hc, app_assoc. reflexivity.
  - rewrite live_bufs_app, live_texs_app, B, T.
    destruct st; split; reflexivity.
Qed.

(** ** The window fits the buffer *)

Lemma emits_poll_case_sends_paint scr l (e : Event) :
  emits sends_paint (poll_case scr l e).
Proof.
  destruct e; cbn [poll_case];
    unfold win_Resize, win_Focus, win_Draw.
  all: try (emit_walk sends_paint; exact I).
  - emit_walk sends_paint; try exact I.
    apply emits_bufTex; exact I.
  - emit_walk sends_paint.
    apply emits_mouseEvent; intros; exact I.
  - emit_walk sends_paint.
    apply emits_keyEvent; intros; exact I.
Qed.

Lemma sends_paint_sane (cs : list Call) :
  Forall sends_paint cs -> Forall sane_size (sent cs).
Proof.
  induction 1 as [ | c cs Hc _ IH ]; [ constructor | ].
  destruct c; cbn; try exact IH.
  destruct e; cbn in Hc; try contradiction. constructor; [ exact I | exact IH ].
Qed.

(** The events still queued after one event are sane if those queued
    before were: the loop itself only ever sends paint requests. *)
Lemma sane_case scr l (e : Event) w x w' :
  Forall sane_size (events w) ->
  poll_case scr l e w = Ok (x, w') ->
  Forall sane_size (events w').
Proof.
  intros Hs H.
  destruct (emits_poll_case_sends_paint scr l e w x w' H) as (cs & Hc & Hf).
  destruct (fifo_poll_case scr l e w x w' H) as (cs' & Hc' & Hq).
  rewrite Hc in Hc'. apply app_inv_head in Hc'. subst cs'.
  assert (Ha : Forall sane_size (received cs ++ events w')).
  { rewrite Hq. apply Forall_app. split; [ exact Hs | ].
    apply sends_paint_sane. exact Hf. }
  apply Forall_app in Ha. apply Ha.
Qed.

Lemma fits_case scr l (e : Event) w l' r w' :
  fits w l ->
  sane_size e ->
  poll_case scr l e w = Ok ((l', r), w') ->
  fits w' l'.
Proof.
  intros Hf Hs H.
  assert (Hq : quiet e = true -> fits w' l').
  { intros Hq.
    destruct (quiet_case scr l e w Hq)
      as (l1 & w1 & cs & H1 & _ & Hb & Ht & Hsz & _).
    rewrite H1 in H. inversion H; subst.
    unfold fits in *. rewrite Hb, Ht, Hsz. exact Hf. }
  destruct e as [ | t | le | se | p | me | ke | ];
    try (apply Hq; reflexivity); clear Hq.
  - revert H. unfold poll_case, Window_Release_, close_done_, log, bind, ret.
    intros H. inversion H; subst. exact Hf.
  - destruct Hf as (Hbt & Hix & Hiy & Hx & Hy).
    destruct Hs as (Hw0 & Hh0 & Hw2 & Hh2).
    destruct (image.Point_eqb (size.Size se) image.ZP) eqn:Hz.
    + revert H. unfold poll_case. rewrite Hz.
      unfold cancel, bind, ret. intros H. inversion H; subst.
      unfold fits. cbn. auto.
    + apply Point_eqb_neq in Hz.
      pose proof (exceeds_test (tex l) (size.Size se) Hix Hiy) as Ht.
      destruct ((image.Dx (screen.Bounds (tex l)) <? image.X (size.Size se))
                || (image.Dy (screen.Bounds (tex l)) <? image.Y (size.Size se)))
        eqn:E.
      * revert H. unfold poll_case.
        rewrite (proj2 (Point_eqb_neq _ _) Hz). run_resize. rewrite E.
        destruct (screen.NewBuffer_ok scr (image.Mul (size.Size se) 2));
          [ | discriminate ].
        cbn [calls].
        destruct (screen.NewTexture_ok scr (image.Mul (size.Size se) 2));
          [ | discriminate ].
        intros H. inversion H; subst.
        rewrite (Mul_2 (size.Size se) Hw2 Hh2).
        unfold fits.
        clear H.
        cbn [buf tex size record with_win screen.buf_size screen.tex_size
             image.X image.Y size.Size size.WidthPx size.HeightPx].
        unfold in_int in *. repeat split; try assumption; lia.
      * assert (Hne : ~ exceeds (tex l) (size.Size se)).
        { intros He. apply Ht in He. congruence. }
        destruct (resize_fits scr l se w Hz Hix Hiy Hne)
          as (w1 & H1 & _ & Hsz & _).
        rewrite H1 in H. inversion H; subst.
        unfold fits, exceeds, in_int in *. cbn [buf tex]. rewrite Hsz.
        clear H H1 Ht. repeat split; try assumption; lia.
  - revert H. unfold poll_case, get_size, win_Draw, on_win, log, bind, ret.
    intros H. inversion H; subst. exact Hf.
Qed.

Lemma fits_loop (fuel : nat) : forall scr l w st l' w',
  fits w l ->
  Forall sane_size (events w) ->
  poll_loop fuel scr l w = Ok ((st, l'), w') ->
  fits w' l'.
Proof.
  induction fuel as [ | fuel IH ]; intros scr l w st l' w' Hf Hs H.
  - inversion H; subst. exact Hf.
  - cbn [poll_loop] in H. unfold bind, NextEvent in H.
    destruct (events w) as [ | e q ] eqn:Eq.
    + inversion H; subst. exact Hf.
    + inversion Hs as [ | e' q' He Hq ]; subst.
      set (w0 := record (NextEvent_ e) (with_events q w)) in *.
      assert (Hf0 : fits w0 l) by exact Hf.
      assert (Hs0 : Forall sane_size (events w0)) by exact Hq.
      destruct (poll_case scr l e w0) as [ [ [l1 r] w1 ] | msg ] eqn:Hc;
        [ | discriminate H ].
      pose proof (fits_case scr l e w0 l1 r w1 Hf0 He Hc) as Hf1.
      pose proof (sane_case scr l e w0 _ w1 Hs0 Hc) as Hs1.
      cbn [fst snd] in H. destruct r.
      * inversion H; subst. exact Hf1.
      * exact (IH _ _ _ _ _ _ Hf1 Hs1 H).
Qed.

(** X12: over any run of [poll] on sizes a host reports (not negative, small
    enough to double): the buffer and the texture always have the same
    size, and the window never exceeds it in width or in height, so the
    rectangle [poll] paints into lies within the buffer. *)
Theorem window_fits_the_buffer (fuel : nat) scr w st l' w' :
  in_int (image.X (size w)) ->
  in_int (image.Y (size w)) ->
  Forall sane_size (events w) ->
  poll fuel scr w = Ok ((st, l'), w') ->
  fits w' l'.
Proof.
  intros Hx Hy Hs. unfold poll, bind. intros H.
  destruct (poll_init scr w) as [ [l0' w0'] | msg ] eqn:Hi; [ | discriminate H ].
  assert (Hf : fits w0' l0' /\ events w0' = events w).
  { revert Hi. unfold poll_init, bufTex, NewBuffer, NewTexture, get_size.
    run.
    destruct (screen.NewBuffer_ok scr (size w)); [ | discriminate ].
    destruct (screen.NewTexture_ok scr (size w)); [ | discriminate ].
    intros Hi. inversion Hi; subst.
    unfold fits, in_int in *. cbn. repeat split; try assumption; lia. }
  destruct Hf as [Hf He].
  apply (fits_loop fuel scr l0' w0' st l' w' Hf); [ | exact H ].
  rewrite He. exact Hs.
Qed.

(** ** Teardown *)

(** X14: [poll] returns at the first [done]: it releases the buffer, then the
    texture, then the window, closes [w.done], and handles none of the
    events queued behind, however long it is let run. *)
Theorem done_ends_the_loop (n : nat) scr l w (rest : list Event) :
  events w = done_ :: rest ->
  exists w',
    poll_loop (S n) scr l w = Ok ((Returned, l), w')
    /\ events w' = rest
    /\ released w' = true
    /\ done w' = true
    /\ calls w' = calls w ++
         [ NextEvent_ done_;
           Buffer_Release (buf l); Texture_Release (tex l);
           Window_Release; close_done ].
Proof.
  intros He. cbn [poll_loop]. unfold bind, NextEvent. rewrite He.
  eexists. split; [ reflexivity | ].
  cbn. rewrite <- !app_assoc. repeat split.
Qed.

(** X15: teardown from start to end.  While the context is live the [tick]
    goroutine cannot take its [ctx.Done] case, so no [done] is sent.  A
    resize to [(0,0)] or a lifecycle change to the dead stage makes the
    loop cancel the context and go on; [tick] can then send [done] and
    stop; and on that [done] the loop releases the window, closes
    [w.done] and returns, with an empty queue. *)
Theorem teardown_runs_to_completion scr l w (e : Event) :
  ctx_Done w = false ->
  tears_down e = true ->
  events w = [e] ->
  tick ctx_Done_ w = Ok (None, w)
  /\ exists w1 w2 w3,
       poll_loop 1 scr l w = Ok ((Running, l), w1)
       /\ ctx_Done w1 = true
       /\ tick ctx_Done_ w1 = Ok (Some false, w2)
       /\ poll_loop 1 scr l w2 = Ok ((Returned, l), w3)
       /\ released w3 = true /\ done w3 = true /\ events w3 = [].
Proof.
  intros Hc Ht He. split.
  - unfold tick, ret. rewrite Hc. reflexivity.
  - assert (H1 : exists w1, poll_loop 1 scr l w = Ok ((Running, l), w1)
                            /\ ctx_Done w1 = true /\ events w1 = []).
    { cbn [poll_loop]. unfold bind, NextEvent. rewrite He.
      destruct e as [ | t | le | se | p | me | ke | ]; try discriminate Ht;
        cbn [tears_down] in Ht; cbn [poll_case]; rewrite Ht;
        unfold cancel, bind, ret; cbn [fst snd];
        (eexists; split; [ reflexivity | split; reflexivity ]). }
    destruct H1 as (w1 & H1 & C1 & E1).
    destruct (tick_after_cancel w1 C1) as (w2 & H2 & E2).
    rewrite E1 in E2. cbn in E2.
    destruct (done_releases scr l (record (NextEvent_ done_) (with_events [] w2)))
      as (w3 & H3 & R3 & D3 & _).
    exists w1, w2, w3.
    split; [ exact H1 | split; [ exact C1 | split; [ exact H2 | ] ] ].
    assert (E3 : events w3 = []).
    { revert H3. unfold poll_case, Window_Release_, close_done_, log, bind, ret.
      intros H3. inversion H3; subst. reflexivity. }
    split; [ | split; [ exact R3 | split; [ exact D3 | exact E3 ] ] ].
    cbn [poll_loop]. unfold bind, NextEvent. rewrite E2, H3. reflexivity.
Qed.

(** ** More on pointer and keyboard events *)

(** X7: an event of a wheel button is one [Wheel] call at the event's point,
    by one unit along one axis, whatever the direction of the event; an
    event of any other button makes no [Wheel] call. *)
Theorem wheel_events_are_unit_scrolls (e : mouse.Event) w :
  (wheel_button (mouse.Button e) = true ->
   exists x y, yields (mouseEvent e) w tt [Win_Wheel (pointer e) x y]
               /\ Z.abs x + Z.abs y = 1)
  /\ (wheel_button (mouse.Button e) = false ->
      forall cs, yields (mouseEvent e) w tt cs ->
      forall pt x y, ~ In (Win_Wheel pt x y) cs).
Proof.
  split.
  - unfold wheel_button. intros H.
    destruct (mouseEvent_wheel e w) as (H1 & H2 & H3 & H4).
    fold (pointer e) in H1, H2, H3, H4.
    repeat (apply orb_true_iff in H; destruct H as [H | H]);
      apply Z.eqb_eq in H.
    + exists 0, 1. split; [ apply H1; exact H | reflexivity ].
    + exists 0, (-1). split; [ apply H2; exact H | reflexivity ].
    + exists (-1), 0. split; [ apply H3; exact H | reflexivity ].
    + exists 1, 0. split; [ apply H4; exact H | reflexivity ].
  - intros Hw cs (w' & H & Hc) pt x y Hin.
    apply wheel_button_false in Hw. destruct Hw as (H1 & H2 & H3 & H4).
    revert H. unfold mouseEvent.
    rewrite (proj2 (Z.eqb_neq _ _) H1), (proj2 (Z.eqb_neq _ _) H2),
      (proj2 (Z.eqb_neq _ _) H3), (proj2 (Z.eqb_neq _ _) H4).
    repeat zcase; run; intros H; inversion H; subst; cbn in Hc;
      rewrite <- ?app_assoc in Hc;
      match type of Hc with
      | calls ?v = calls ?v ++ _ =>
          rewrite <- (app_nil_r (calls v)) in Hc at 1
      | _ => idtac
      end;
      apply app_inv_head in Hc; subst cs; cbn in Hin;
      intuition discriminate.
Qed.

(** X8: pointer and keyboard events reach the tree and nothing else: the
    loop goes on, the context, the size, the queue, the dirty flag, the
    buffer and the texture are untouched, and every call made is a
    [Wheel], [Move], [Click], [Dir], [Mod] or [Rune] call on the tree. *)
Theorem input_events_only_reach_the_tree scr l (e : Event) w l' r w' :
  (exists me, e = mouse_Event me) \/ (exists ke, e = key_Event ke) ->
  poll_case scr l e w = Ok ((l', r), w') ->
  r = false
  /\ same_but_tree w w'
  /\ dirty l' = dirty l /\ buf l' = buf l /\ tex l' = tex l
  /\ exists cs, calls w' = calls w ++ cs /\ Forall is_input cs.
Proof.
  intros [ [me ->] | [ke ->] ] H; revert H; cbn [poll_case]; unfold bind, ret.
  - destruct (mouseEvent me w) as [ [ [] w1 ] | msg ] eqn:Hm; [ | discriminate ].
    intros H. inversion H; subst.
    split; [ reflexivity | ].
    split; [ exact (tree_mouseEvent me w tt w' Hm) | ].
    repeat split.
    apply (emits_mouseEvent is_input) with (e := me) (a := tt);
      try (intros; exact I). exact Hm.
  - destruct (keyEvent (mods l) ke w) as [ [ m1 w1 ] | msg ] eqn:Hk;
      [ | discriminate ].
    intros H. inversion H; subst.
    split; [ reflexivity | ].
    split; [ exact (tree_keyEvent (mods l) ke w m1 w' Hk) | ].
    repeat split.
    apply (emits_keyEvent is_input) with (mods := mods l) (e := ke) (a := m1);
      try (intros; exact I). exact Hk.
Qed.

(** ** Growth is absorbed *)

(** X13: after a resize that made the loop reallocate, a later resize to any
    size up to twice as wide and twice as high is applied without any
    allocation or release: the texture and the buffer stay. *)
Theorem growth_absorbs_later_resizes scr l (e e' : size.Event) w l1 w1 :
  size.Size e <> image.ZP ->
  size.Size e' <> image.ZP ->
  in_int (image.X (screen.tex_size (tex l))) ->
  in_int (image.Y (screen.tex_size (tex l))) ->
  in_int (2 * size.WidthPx e) ->
  in_int (2 * size.HeightPx e) ->
  exceeds (tex l) (size.Size e) ->
  size.WidthPx e' <= 2 * size.WidthPx e ->
  size.HeightPx e' <= 2 * size.HeightPx e ->
  poll_case scr l (size_Event e) w = Ok ((l1, false), w1) ->
  yields (poll_case scr l1 (size_Event e')) w1
    (mkframe (mods l) true (buf l1) (tex l1), false)
    [Win_Resize (size.Size e')]
  /\ tex l1 = screen.mkTexture
                (image.Pt (2 * size.WidthPx e) (2 * size.HeightPx e)).
Proof.
  intros Hz Hz' Hx Hy Hw2 Hh2 He Hw Hh H.
  assert (Ha : can_alloc scr (image.Mul (size.Size e) 2)).
  { unfold can_alloc.
    destruct (screen.NewBuffer_ok scr (image.Mul (size.Size e) 2)) eqn:Hb;
      [ destruct (screen.NewTexture_ok scr (image.Mul (size.Size e) 2)) eqn:Ht;
        [ split; reflexivity | ] | ];
      exfalso; revert H; unfold poll_case;
      rewrite (proj2 (Point_eqb_neq _ _) Hz); run_resize;
      rewrite (proj2 (exceeds_test (tex l) (size.Size e) Hx Hy) He), Hb;
      cbn [calls]; rewrite ?Ht; discriminate. }
  destruct (resize_grows scr l e w Hz Hx Hy He Ha) as (w1' & H1 & _).
  rewrite H1 in H. inversion H; subst l1 w1'. clear H.
  rewrite (Mul_2 (size.Size e) Hw2 Hh2) in *.
  split; [ | reflexivity ].
  destruct (resize_fits scr
              (mkframe (mods l) true
                 (screen.mkBuffer (image.Pt (2 * image.X (size.Size e))
                                            (2 * image.Y (size.Size e))))
                 (screen.mkTexture (image.Pt (2 * image.X (size.Size e))
                                             (2 * image.Y (size.Size e)))))
              e' w1 Hz')
    as (w2 & H2 & _ & _ & _ & Hc2).
  - exact Hw2.
  - exact Hh2.
  - unfold exceeds.
    cbn [tex screen.tex_size image.X image.Y size.Size]. lia.
  - exists w2. split; [ exact H2 | exact Hc2 ].
Qed.

(** ** The image handed to [Draw] *)

(** The part of an image spanning [(0,0)-bsz] that lies inside the
    rectangle [(0,0)-sz]: all of the rectangle when it is not empty and
    [bsz] covers it, and the empty image when the rectangle is empty. *)
Lemma SubImage_window (bsz sz : image.Point) :
  (0 < image.X sz -> 0 < image.Y sz ->
   image.X sz <= image.X bsz -> image.Y sz <= image.Y bsz ->
   image.SubImage (image.Rect image.ZP bsz) (image.Rect image.ZP sz)
   = image.Rect image.ZP sz)
  /\ (image.X sz <= 0 \/ image.Y sz <= 0 ->
      image.SubImage (image.Rect image.ZP bsz) (image.Rect image.ZP sz)
      = image.ZR).
Proof.
  destruct bsz as [bx by_], sz as [sx sy].
  unfold image.SubImage, image.Intersect, image.Empty, image.ZR, image.ZP.
  cbn [image.X image.Y image.Min image.Max].
  rewrite Z.ltb_irrefl.
  split.
  - intros Hx Hy Hbx Hby.
    rewrite (proj2 (Z.ltb_ge bx sx) Hbx), (proj2 (Z.ltb_ge by_ sy) Hby).
    cbn [image.X image.Y image.Min image.Max].
    rewrite (proj2 (Z.leb_gt sx 0) Hx), (proj2 (Z.leb_gt sy 0) Hy).
    cbn [orb image.X image.Y image.Min image.Max].
    rewrite (proj2 (Z.leb_gt sx 0) Hx), (proj2 (Z.leb_gt sy 0) Hy).
    reflexivity.
  - intros H.
    assert (E : ((if bx <? sx then bx else sx) <=? 0)
                || ((if by_ <? sy then by_ else sy) <=? 0) = true).
    { apply orb_true_iff.
      destruct H as [H | H]; [ left | right ]; apply Z.leb_le;
        [ destruct (Z.ltb_spec bx sx) | destruct (Z.ltb_spec by_ sy) ]; lia. }
    cbn [image.X image.Y image.Min image.Max].
    rewrite E. reflexivity.
Qed.

(** X16: on a paint request the loop draws, uploads the buffer to the
    texture, draws the texture on the window and publishes, in that
    order, and lowers the dirty flag.  The image handed to [Draw] is the
    window rectangle [(0,0)-w.size] itself when the window is not empty
    and the buffer covers it, and the empty image when the window has a
    dimension that is not positive. *)
Theorem paint_draws_the_window scr l (p : paint.Event) w :
  (0 < image.X (size w) -> 0 < image.Y (size w) ->
   image.X (size w) <= image.X (screen.buf_size (buf l)) ->
   image.Y (size w) <= image.Y (screen.buf_size (buf l)) ->
   yields (poll_case scr l (paint_Event p)) w
     (mkframe (mods l) false (buf l) (tex l), false)
     [ Win_Draw (dirty l) (image.Rect image.ZP (size w));
       Texture_Upload (tex l) (buf l); Window_Draw (tex l);
       Window_Publish ])
  /\ (image.X (size w) <= 0 \/ image.Y (size w) <= 0 ->
      yields (poll_case scr l (paint_Event p)) w
        (mkframe (mods l) false (buf l) (tex l), false)
        [ Win_Draw (dirty l) image.ZR;
          Texture_Upload (tex l) (buf l); Window_Draw (tex l);
          Window_Publish ]).
Proof.
  destruct (SubImage_window (screen.buf_size (buf l)) (size w)) as [H1 H2].
  assert (H : yields (poll_case scr l (paint_Event p)) w
                (mkframe (mods l) false (buf l) (tex l), false)
                [ Win_Draw (dirty l)
                    (image.SubImage (screen.RGBA (buf l))
                       (image.Rect image.ZP (size w)));
                  Texture_Upload (tex l) (buf l); Window_Draw (tex l);
                  Window_Publish ]).
  { unfold poll_case, get_size, win_Draw, on_win, log, bind, ret.
    eexists. split; [ reflexivity | ].
    cbn. rewrite <- !app_assoc. reflexivity. }
  unfold screen.RGBA, screen.Buffer_Bounds in H.
  split.
  - intros Hx Hy Hbx Hby. rewrite (H1 Hx Hy Hbx Hby) in H. exact H.
  - intros Hz. rewrite (H2 Hz) in H. exact H.
Qed.

End Properties.

(** * The properties at work on a concrete window *)

#[export] Existing Instance blink_ops.

Lemma dir_key_press_Home :
  yields (keyEvent zero4 press_Up) w0 zero4 [Win_Dir 0 (-1)]
  /\ yields (keyEvent zero4 press_Home) w0 zero4 [Win_Dir 0 (- 2 ^ 15)].
Proof.
  split.
  - apply (proj1 (dir_key_press zero4 press_Up w0)).
    + left. reflexivity.
    + reflexivity.
  - apply (proj1 (dir_key_press zero4 press_Home w0)).
    + left. reflexivity.
    + reflexivity.
Defined.

Lemma delete_keys_are_runes_Backspace :
  yields (keyEvent zero4 press_Backspace) w0 zero4 [Win_Rune 8].
Proof.
  apply (proj1 (delete_keys_are_runes zero4 press_Backspace w0)).
  - left. reflexivity.
  - reflexivity.
Defined.

Lemma rune_never_nonpositive_Return :
  yields (keyEvent zero4 press_Return) w0 zero4 [Win_Rune 10].
Proof.
  apply (proj2 (proj2 (proj2 (rune_never_nonpositive zero4 press_Return w0)))).
  - left. reflexivity.
  - reflexivity.
  - reflexivity.
Defined.

(** C5 as it is stated fails: a resize to 0 by 5 has area zero, yet the
    loop does not cancel the context on it. *)
Lemma zero_area_resize_is_applied :
  zero_area resize_0_5
  /\ ~ begins_teardown good_screen l0 resize_0_5 w0.
Proof.
  split; [ reflexivity | ].
  intros (w' & H & Hc & _).
  vm_compute in H. inversion H; subst. discriminate Hc.
Qed.

Lemma zero_size_begins_teardown_0_0 :
  begins_teardown good_screen l0 resize_0_0 w0
  /\ applies_resize good_screen l0 resize_0_5 w0.
Proof.
  split.
  - apply (proj1 (zero_size_begins_teardown good_screen l0 resize_0_0 w0)).
    reflexivity.
  - apply (proj2 (zero_size_begins_teardown good_screen l0 resize_0_5 w0)).
    + discriminate.
    + split; reflexivity.
Defined.

Lemma realloc_exactly_on_overflow_100_100 :
  yields (poll_case good_screen l0 (size_Event resize_100_100)) w0
    (mkframe zero4 true (screen.mkBuffer (image.Pt 200 200))
       (screen.mkTexture (image.Pt 200 200)), false)
    [ Win_Resize (image.Pt 100 100);
      Texture_Release (tex l0); Buffer_Release (buf l0);
      NewBuffer_ (image.Pt 200 200); NewTexture_ (image.Pt 200 200) ].
Proof.
  refine (proj1 (realloc_exactly_on_overflow good_screen l0 resize_100_100 w0
                   _ _ _ _ _) _ _).
  - discriminate.
  - unfold in_int. cbn. lia.
  - unfold in_int. cbn. lia.
  - unfold in_int. cbn. lia.
  - unfold in_int. cbn. lia.
  - left. cbn. lia.
  - split; reflexivity.
Defined.

Lemma resize_then_full_redraw_session :
  exists l' w' cs,
    poll_loop 6 good_screen l0 (with_events a_session w0)
    = Ok ((Running, l'), w')
    /\ calls w' = calls (with_events a_session w0) ++ cs
    /\ received cs = a_session
    /\ redraws cs =
         [ Win_Resize (image.Pt 100 100);
           Win_Draw true
             (image.SubImage (screen.RGBA (buf l'))
                (image.Rect image.ZP (image.Pt 100 100)));
           Win_Draw false
             (image.SubImage (screen.RGBA (buf l'))
                (image.Rect image.ZP (image.Pt 100 100))) ]
    /\ dirty l' = false.
Proof.
  refine (proj2 (resize_then_full_redraw good_screen l0
                   (with_events a_session w0) resize_100_100
                   paint_request paint_request
                   [time_Time 0; key_Event press_a]
                   [mouse_Event move_to_3_4] []) _ _ _ _ _).
  - discriminate.
  - split; reflexivity.
  - reflexivity.
  - reflexivity.
  - reflexivity.
Defined.

(** C9 as it is stated fails: a "step" event of the wheel-up button is
    not dispatched as two clicks. *)
Lemma step_of_wheel_is_not_clicks :
  mouse.Direction step_wheel_up = mouse.DirStep
  /\ ~ two_clicks good_screen l0 step_wheel_up w0.
Proof.
  split; [ reflexivity | ].
  intros (w' & H & Hc).
  vm_compute in H. inversion H; subst. discriminate Hc.
Qed.

Lemma step_is_press_then_release_left :
  two_clicks good_screen l0 step_left w0.
Proof.
  apply (step_is_press_then_release good_screen l0 step_left w0).
  - reflexivity.
  - reflexivity.
  - unfold in_int32, step_left, mouse.ButtonLeft. cbn [mouse.Button]. lia.
Defined.

(** ** The further properties on the same window *)

Lemma mod_calls_are_edges_Alt :
  b0 (B4 false false true false) = false
  /\ (List.length (modcalls [Win_Mod 2]) <= 1)%nat
  /\ (forall m, In m (modcalls [Win_Mod 2]) ->
        (1 <= m <= 3 /\ idx zero4 m = false
         /\ idx (B4 false false true false) m = true)
        \/ (-3 <= m <= -1 /\ idx zero4 (- m) = true
            /\ idx (B4 false false true false) (- m) = false)).
Proof.
  apply (mod_calls_are_edges zero4 press_Alt w0).
  - reflexivity.
  - exists (snd after_Alt). split; reflexivity.
Defined.

Lemma modifier_state_follows_report_Alt :
  ((press_like press_Alt
    /\ lookup dirKeyCode (key.Code press_Alt) = true)
   \/ 0 < typed press_Alt ->
   B4 false false true false = zero4 /\ modcalls [Win_Mod 2] = [])
  /\ (~ (press_like press_Alt
         /\ lookup dirKeyCode (key.Code press_Alt) = true) ->
      typed press_Alt <= 0 ->
      B4 false false true false = reported press_Alt).
Proof.
  apply (modifier_state_follows_report zero4 press_Alt w0).
  - reflexivity.
  - exists (snd after_Alt). split; reflexivity.
Defined.

Lemma repeated_key_event_is_silent_Alt :
  exists cs2,
    yields (keyEvent (fst after_Alt) press_Alt) (snd after_Alt)
      (fst after_Alt) cs2
    /\ modcalls cs2 = [].
Proof.
  apply (repeated_key_event_is_silent zero4 press_Alt w0
           (fst after_Alt) [Win_Mod 2] (snd after_Alt)).
  - reflexivity.
  - reflexivity.
  - reflexivity.
Defined.

Lemma press_then_release_is_step_left :
  bind (mouseEvent (mouse.mkEvent (10 # 1) (20 # 1) 1 0 mouse.DirPress))
       (fun _ => mouseEvent (mouse.mkEvent (10 # 1) (20 # 1) 1 0
                               mouse.DirRelease)) w0
  = mouseEvent step_left w0.
Proof.
  apply (press_then_release_is_step (10 # 1) (20 # 1) 1 0 w0).
  reflexivity.
Defined.

Lemma newWindow_drops_until_size_focus :
  (exists w,
      newWindow good_screen
        ([lifecycle_Event (lifecycle.mkEvent 1 3); paint_Event paint_request]
           ++ size_Event resize_100_100 :: [key_Event press_a])
      = Ok (Some w)
      /\ size w = size.Size resize_100_100
      /\ events w = [key_Event press_a]
      /\ ctx_Done w = false
      /\ calls w = [Win_Resize (size.Size resize_100_100)])
  /\ newWindow (Win:=blink) good_screen
       [lifecycle_Event (lifecycle.mkEvent 1 3); paint_Event paint_request]
     = Ok None.
Proof.
  apply (newWindow_drops_until_size (Win:=blink) good_screen).
  - reflexivity.
  - reflexivity.
Defined.

Lemma draws_follow_the_dirty_flag_session :
  exists cs,
    calls (snd session_end) = calls (with_events a_session w0) ++ cs
    /\ flag_run true cs = Some (dirty (snd (fst session_end))).
Proof.
  apply (draws_follow_the_dirty_flag 7 good_screen
           (with_events a_session w0) (fst (fst session_end))).
  vm_compute. reflexivity.
Defined.

Lemma buffers_and_textures_balance_session :
  exists cs,
    calls (snd session_end) = calls (with_events a_session w0) ++ cs
    /\ live_bufs cs = 1 /\ live_texs cs = 1.
Proof.
  apply (buffers_and_textures_balance 7 good_screen
           (with_events a_session w0) Blocked (snd (fst session_end))).
  vm_compute. reflexivity.
Defined.

Lemma window_fits_the_buffer_session :
  fits (snd session_end) (snd (fst session_end)).
Proof.
  apply (window_fits_the_buffer 7 good_screen (with_events a_session w0)
           (fst (fst session_end))).
  - unfold in_int. cbn. lia.
  - unfold in_int. cbn. lia.
  - unfold a_session, with_events, w0. cbn [events app].
    repeat constructor; unfold in_int; cbn; lia.
  - vm_compute. reflexivity.
Defined.

Lemma done_ends_the_loop_at_once :
  exists w',
    poll_loop 5 good_screen l0
      (with_events [done_; paint_Event paint_request] w0)
    = Ok ((Returned, l0), w')
    /\ events w' = [paint_Event paint_request]
    /\ released w' = true
    /\ done w' = true
    /\ calls w' =
         calls (with_events [done_; paint_Event paint_request] w0) ++
         [ NextEvent_ done_;
           Buffer_Release (buf l0); Texture_Release (tex l0);
           Window_Release; close_done ].
Proof.
  apply (done_ends_the_loop 4 good_screen l0
           (with_events [done_; paint_Event paint_request] w0)).
  reflexivity.
Defined.

Lemma teardown_runs_to_completion_0_0 :
  tick ctx_Done_ (with_events [size_Event resize_0_0] w0)
  = Ok (None, with_events [size_Event resize_0_0] w0)
  /\ exists w1 w2 w3,
       poll_loop 1 good_screen l0 (with_events [size_Event resize_0_0] w0)
       = Ok ((Running, l0), w1)
       /\ ctx_Done w1 = true
       /\ tick ctx_Done_ w1 = Ok (Some false, w2)
       /\ poll_loop 1 good_screen l0 w2 = Ok ((Returned, l0), w3)
       /\ released w3 = true /\ done w3 = true /\ events w3 = [].
Proof.
  apply (teardown_runs_to_completion good_screen l0
           (with_events [size_Event resize_0_0] w0) (size_Event resize_0_0)).
  - reflexivity.
  - reflexivity.
  - reflexivity.
Defined.

Lemma input_events_only_reach_the_tree_a :
  snd (fst after_a) = false
  /\ same_but_tree w0 (snd after_a)
  /\ dirty (fst (fst after_a)) = dirty l0
  /\ buf (fst (fst after_a)) = buf l0
  /\ tex (fst (fst after_a)) = tex l0
  /\ exists cs, calls (snd after_a) = calls w0 ++ cs /\ Forall is_input cs.
Proof.
  apply (input_events_only_reach_the_tree good_screen l0 (key_Event press_a)).
  - right. exists press_a. reflexivity.
  - reflexivity.
Defined.

Lemma growth_absorbs_later_resizes_150_200 :
  yields (poll_case good_screen (fst (fst after_resize))
            (size_Event resize_150_200)) (snd after_resize)
    (mkframe (mods l0) true (buf (fst (fst after_resize)))
       (tex (fst (fst after_resize))), false)
    [Win_Resize (size.Size resize_150_200)]
  /\ tex (fst (fst after_resize)) = screen.mkTexture (image.Pt 200 200).
Proof.
  apply (growth_absorbs_later_resizes good_screen l0 resize_100_100
           resize_150_200 w0).
  - discriminate.
  - discriminate.
  - unfold in_int. cbn. lia.
  - unfold in_int. cbn. lia.
  - unfold in_int. cbn. lia.
  - unfold in_int. cbn. lia.
  - left. cbn. lia.
  - cbn. lia.
  - cbn. lia.
  - reflexivity.
Defined.

Lemma paint_draws_the_window_80_60 :
  yields (poll_case good_screen l0 (paint_Event paint_request)) w0
    (mkframe (mods l0) false (buf l0) (tex l0), false)
    [ Win_Draw (dirty l0) (image.Rect image.ZP (size w0));
      Texture_Upload (tex l0) (buf l0); Window_Draw (tex l0);
      Window_Publish ].
Proof.
  apply (proj1 (paint_draws_the_window good_screen l0 paint_request w0)).
  - cbn. lia.
  - cbn. lia.
  - cbn. lia.
  - cbn. lia.
Defined.
